(** * Hacker Stories: the stories reducer, the search history, the sort
    engine, the fetch cycle and the persisted search term of [App.tsx],
    embedded in Rocq.

    Every definition below is a transcription of a function of [App.tsx]
    (the version with pagination, last searches and sortable columns).
    JavaScript values are modelled as follows:
    - [string] for strings (sequences of code units, compared with [===]);
    - [Z] for the numbers the code handles (page indexes, points and comment
      counts are integers);
    - [list] for arrays, which the code never updates in place on a value it
      shares: [concat], [filter], [slice] and lodash's [sortBy] return fresh
      arrays. *)

From Stdlib Require Import ZArith Strings.String Strings.Ascii.
From Stdlib Require Import Numbers.DecimalString.
From stdpp Require Import base tactics list strings sorting gmap.

Local Open Scope string_scope.
Local Open Scope list_scope.
Local Open Scope Z_scope.

(** ** Data model *)

(** [type Story]. *)
Record Story := {
  objectID : string;
  url : string;
  title : string;
  author : string;
  num_comments : Z;
  points : Z
}.

(** [type Stories = Array<Story>]. *)
Abbreviation Stories := (list Story).

(** [type StoriesState]. *)
Record StoriesState := {
  data : Stories;
  page : Z;
  isLoading : bool;
  isError : bool
}.

(** The payload of an action object: absent, the [{list, page}] object of
    [StoriesFetchSuccessAction], or the [Story] of [StoriesRemoveAction]. *)
Inductive Payload :=
| NoPayload
| SuccessPayload (payload_list : Stories) (payload_page : Z)
| StoryPayload (story : Story).

(** An action object as the reducer receives it at run time: a [type] tag,
    which the [switch] inspects as a string, and a payload. *)
Record Action := {
  type : string;
  payload : Payload
}.

(** The four members of the union [StoriesAction]. *)
Definition StoriesFetchInitAction : Action :=
  {| type := "STORIES_FETCH_INIT"; payload := NoPayload |}.
Definition StoriesFetchSuccessAction (l : Stories) (p : Z) : Action :=
  {| type := "STORIES_FETCH_SUCCESS"; payload := SuccessPayload l p |}.
Definition StoriesFetchFailureAction : Action :=
  {| type := "STORIES_FETCH_FAILURE"; payload := NoPayload |}.
Definition StoriesRemoveAction (item : Story) : Action :=
  {| type := "REMOVE_STORY"; payload := StoryPayload item |}.

(** How a call of the reducer completes.
    - [Return s]: the [return] of one of the four cases;
    - [Throw]: the [throw new Error()] of the [default] case;
    - [Untyped]: the tag is one of the four but the payload has not the shape
      the TypeScript interface of that tag requires. Such an object does not
      inhabit [StoriesAction]; the model does not follow JavaScript there. *)
Inductive Completion (A : Type) :=
| Return (a : A)
| Throw
| Untyped.
Arguments Return {A} a.
Arguments Throw {A}.
Arguments Untyped {A}.

(** ** StoriesStore: [storiesReducer] *)

Definition storiesReducer (state : StoriesState) (action : Action)
  : Completion StoriesState :=
  if decide (type action = "STORIES_FETCH_INIT") then
    Return {| data := data state; page := page state;
              isLoading := true; isError := false |}
  else if decide (type action = "STORIES_FETCH_SUCCESS") then
    match payload action with
    | SuccessPayload payload_list payload_page =>
        Return {| isLoading := false; isError := false;
                  data := if payload_page =? 0
                          then payload_list
                          else data state ++ payload_list;
                  page := payload_page |}
    | _ => Untyped
    end
  else if decide (type action = "STORIES_FETCH_FAILURE") then
    Return {| data := data state; page := page state;
              isLoading := false; isError := true |}
  else if decide (type action = "REMOVE_STORY") then
    match payload action with
    | StoryPayload item =>
        Return {| data := filter (λ story, objectID item ≠ objectID story)
                                 (data state);
                  page := page state;
                  isLoading := isLoading state; isError := isError state |}
    | _ => Untyped
    end
  else Throw.

(** The initial state handed to [React.useReducer] in [App]. *)
Definition initialStories : StoriesState :=
  {| data := []; page := 0; isLoading := false; isError := false |}.

(** [dispatchStories] applied to a sequence of actions, first to last: each
    action is reduced against the state the previous one returned; a throw
    ends the run. *)
Fixpoint dispatchAll (state : StoriesState) (actions : list Action)
  : Completion StoriesState :=
  match actions with
  | [] => Return state
  | action :: rest =>
      match storiesReducer state action with
      | Return state' => dispatchAll state' rest
      | Throw => Throw
      | Untyped => Untyped
      end
  end.

(** The actions of loading the pages [first], [first + 1], ... *)
Fixpoint morePages (first : positive) (payloads : list Stories)
  : list Action :=
  match payloads with
  | [] => []
  | l :: rest =>
      StoriesFetchSuccessAction l (Z.pos first)
        :: morePages (Pos.succ first) rest
  end.

(** The states the store can be in: the initial one and every state a
    returning call of the reducer produces from a reachable one. *)
Inductive reachable : StoriesState → Prop :=
| reachable_initial : reachable initialStories
| reachable_dispatch state action state' :
    reachable state →
    storiesReducer state action = Return state' →
    reachable state'.

(** [getSumComments]. The source adds JavaScript numbers, the model adds
    integers: the two agree as long as every addition stays among the
    integers a number holds exactly, those up to [MAX_SAFE_INTEGER] in
    absolute value. Beyond, the source rounds and the model does not; the
    equalities proved of the total below are stated for comment counts
    within that range ([exactComments]). *)
Definition getSumComments (stories : StoriesState) : Z :=
  foldl (λ result value, result + num_comments value) 0 (data stories).

(** [Number.MAX_SAFE_INTEGER]. *)
Definition MAX_SAFE_INTEGER : Z := 2 ^ 53 - 1.

(** Comment counts the source adds up without rounding, in whatever order
    it meets them: none is negative and their total is a safe integer, so
    that every partial total is one too. *)
Definition exactComments (stories : Stories) : Prop :=
  Forall (λ story, 0 ≤ num_comments story) stories
  ∧ foldl (λ result value, result + num_comments value) 0 stories
    ≤ MAX_SAFE_INTEGER.

(** ** The JavaScript built-ins the code calls

    Each function follows the ECMAScript definition of the method of the
    same name, for the argument types the code passes. *)
Module JS.

(** [String(n)] of an integer, as a template literal prints it: decimal
    digits, with a leading minus sign below zero. (JavaScript switches to
    the exponent notation from 10^21 on; page indexes are far below.) *)
Definition toString (n : Z) : string :=
  NilZero.string_of_int (Z.to_int n).

(** The string without its first [n] code units. *)
Fixpoint dropChars (n : nat) (s : string) : string :=
  match n, s with
  | O, _ => s
  | S _, EmptyString => EmptyString
  | S n', String _ s' => dropChars n' s'
  end.

(** The first [n] code units of the string. *)
Fixpoint takeChars (n : nat) (s : string) : string :=
  match n, s with
  | O, _ => EmptyString
  | S _, EmptyString => EmptyString
  | S n', String c s' => String c (takeChars n' s')
  end.

(** [s.lastIndexOf(searchString)]: the greatest index at which
    [searchString] occurs in [s], or [-1]. *)
Fixpoint lastIndexOf (s searchString : string) : Z :=
  match s with
  | EmptyString => if String.prefix searchString s then 0 else -1
  | String _ s' =>
      let later := lastIndexOf s' searchString in
      if 0 <=? later then later + 1
      else if String.prefix searchString s then 0 else -1
  end.

(** [s.substring(indexStart, indexEnd)]: both indexes are clamped to
    [0 .. s.length], and swapped when the first exceeds the second. *)
Definition substring (s : string) (indexStart indexEnd : Z) : string :=
  let len := Z.of_nat (String.length s) in
  let finalStart := Z.min (Z.max indexStart 0) len in
  let finalEnd := Z.min (Z.max indexEnd 0) len in
  let from := Z.min finalStart finalEnd in
  let to := Z.max finalStart finalEnd in
  takeChars (Z.to_nat (to - from)) (dropChars (Z.to_nat from) s).

(** [s.replace(pattern, replacement)] with a string pattern: only the
    first occurrence is replaced. The code passes the replacement [''],
    which holds no [$] pattern. *)
Fixpoint replace (s pattern replacement : string) : string :=
  if String.prefix pattern s
  then replacement +:+ dropChars (String.length pattern) s
  else match s with
       | EmptyString => EmptyString
       | String c s' => String c (replace s' pattern replacement)
       end.

(** Whether the code unit [c] occurs in [s], as [s.includes(c)] tells. *)
Fixpoint includesChar (s : string) (c : ascii) : bool :=
  match s with
  | EmptyString => false
  | String c' s' => Ascii.eqb c c' || includesChar s' c
  end.

Section Arrays.
Context {A B : Type}.

(** [array.reduce(callback, initialValue)], the callback receiving the
    accumulator, the element and its index. *)
Fixpoint reduceFrom (callback : B → A → nat → B) (index : nat)
    (accumulator : B) (array : list A) : B :=
  match array with
  | [] => accumulator
  | element :: rest =>
      reduceFrom callback (S index) (callback accumulator element index)
        rest
  end.

Definition reduce (callback : B → A → nat → B) (initialValue : B)
    (array : list A) : B :=
  reduceFrom callback 0%nat initialValue array.

(** [array.slice(start, end)]: a negative index counts from the end of
    the array, an index beyond either end is clamped, and a missing
    [end] is the length. *)
Definition slice (array : list A) (start : Z) (end_ : option Z)
  : list A :=
  let len := Z.of_nat (length array) in
  let relative (i : Z) :=
    if i <? 0 then Z.max (len + i) 0 else Z.min i len in
  let k := relative start in
  let final := match end_ with
               | None => len
               | Some e => relative e
               end in
  take (Z.to_nat (Z.max (final - k) 0)) (drop (Z.to_nat k) array).
End Arrays.

End JS.

(** ** QueryController: URLs *)

Definition API_BASE : string := "https://hn.algolia.com/api/v1".
Definition API_SEARCH : string := "/search".
Definition PARAM_SEARCH : string := "query=".
Definition PARAM_PAGE : string := "page=".

Definition getUrl (searchTerm : string) (page : Z) : string :=
  API_BASE +:+ API_SEARCH +:+ "?" +:+ PARAM_SEARCH +:+ searchTerm
    +:+ "&" +:+ PARAM_PAGE +:+ JS.toString page.

Definition extractSearchTerm (url : string) : string :=
  JS.replace
    (JS.substring url (JS.lastIndexOf url "?" + 1) (JS.lastIndexOf url "&"))
    PARAM_SEARCH "".

(** ** SearchHistory: [getLastSearches] *)

(** The callback handed to [reduce]. [result[result.length - 1]] is
    [undefined] on an empty [result]; [last] returns [None] there, which no
    search term equals. *)
Definition collectSearchTerm (result : list string) (url : string)
    (index : nat) : list string :=
  let searchTerm := extractSearchTerm url in
  if decide (index = 0%nat) then result ++ [searchTerm]
  else
    let previousSearchTerm := last result in
    if decide (Some searchTerm = previousSearchTerm) then result
    else result ++ [searchTerm].

Definition getLastSearches (urls : list string) : list string :=
  JS.slice (JS.slice (JS.reduce collectSearchTerm [] urls) (-6) None)
    0 (Some (-1)).

(** The handlers of [App] that grow the list of URLs. *)
Definition handleSearch (urls : list string) (searchTerm : string)
    (page : Z) : list string :=
  urls ++ [getUrl searchTerm page].

(** [urls[urls.length - 1]] is [undefined] on an empty list of URLs, which
    [App] never has; [handleMore] is then not modelled. *)
Definition handleMore (urls : list string) (stories : StoriesState)
  : option (list string) :=
  lastUrl ← last urls;
  Some (handleSearch urls (extractSearchTerm lastUrl) (page stories + 1)).

(** ** SortEngine: [SORTS] and the [List] component *)

Module Lodash.
Section SortBy.
Context {A K : Type}.
Variable le : K → K → bool.
Variable iteratee : A → K.

(** [element] goes in front of the first entry whose key is not below
    its own. *)
Fixpoint insertBy (element : A) (sorted : list A) : list A :=
  match sorted with
  | [] => [element]
  | head :: tail =>
      if le (iteratee element) (iteratee head)
      then element :: head :: tail
      else head :: insertBy element tail
  end.

(** Modelled from the spec: lodash's [sortBy] is imported from the
    [lodash] package and is not part of the sources. The spec (4.4)
    has it as a stable ascending sort on the field, as lodash documents
    it: a fresh array, in ascending order of the iteratee's value, in
    which elements with equal values keep their input order. Each
    element is inserted in front of the already sorted elements that
    follow it in the input. *)
Definition sortBy (collection : list A) : list A :=
  foldr insertBy [] collection.

(** Keys ascend along the list: each element's key is at most the next
    one's. *)
Fixpoint ascending (l : list A) : Prop :=
  match l with
  | [] => True
  | x :: rest =>
      match rest with
      | [] => True
      | y :: _ => le (iteratee x) (iteratee y) = true
      end ∧ ascending rest
  end.
End SortBy.
End Lodash.

(** The keys of [SORTS]. *)
Inductive SortKey := NONE | TITLE | AUTHOR | COMMENT | POINT.

Global Instance SortKey_eq_dec : EqDecision SortKey.
Proof. solve_decision. Defined.

(** [array.reverse()] is applied to the fresh array [sortBy] returned, so
    the list handed in is left as it was. *)
Definition SORTS (sortKey : SortKey) (list : Stories) : Stories :=
  match sortKey with
  | NONE => list
  | TITLE => Lodash.sortBy String.leb title list
  | AUTHOR => Lodash.sortBy String.leb author list
  | COMMENT => reverse (Lodash.sortBy Z.leb num_comments list)
  | POINT => reverse (Lodash.sortBy Z.leb points list)
  end.

(** The [sort] state of the [List] component. *)
Record Sort := {
  sortKey : SortKey;
  isReverse : bool
}.

(** [React.useState({ sortKey: 'NONE', isReverse: false })]. *)
Definition initialSort : Sort := {| sortKey := NONE; isReverse := false |}.

(** [handleSort], called by the four header buttons. *)
Definition handleSort (sort : Sort) (key : SortKey) : Sort :=
  {| sortKey := key;
     isReverse := bool_decide (sortKey sort = key) && negb (isReverse sort) |}.

(** [sortedList], the list the component renders. Under the key [NONE]
    the [reverse()] of the source would act on the [list] prop itself;
    [handleSort] is never called with [NONE], so the reverse flag is only
    ever set under one of the four sorting keys. *)
Definition sortedList (sort : Sort) (list : Stories) : Stories :=
  let sortFunction := SORTS (sortKey sort) in
  if isReverse sort
  then reverse (sortFunction list)
  else sortFunction list.

(** The records of a list whose point score is [score], in the order the
    list has them. *)
Definition withPoints (score : Z) (list : Stories) : Stories :=
  filter (λ story, points story = score) list.

(** ** Sample data for the worked examples *)

(** A story with the given identifier, title and point score. *)
Definition sampleStory (id headline : string) (score : Z) : Story :=
  {| objectID := id; url := ""; title := headline; author := "";
     num_comments := 0; points := score |}.

(** A story with the given identifier and comment count. *)
Definition commentedStory (id : string) (comments : Z) : Story :=
  {| objectID := id; url := ""; title := ""; author := "";
     num_comments := comments; points := 0 |}.

(** A state holding the given stories, the first page loaded. *)
Definition loadedStories (stories : Stories) : StoriesState :=
  {| data := stories; page := 0; isLoading := false; isError := false |}.

(** The sort state after one click on [Points], and after a second one. *)
Definition pointsFirst : Sort := handleSort initialSort POINT.
Definition pointsToggled : Sort := handleSort pointsFirst POINT.

(** ** The search history as the specification words it

    [recentTerms] is the derivation of the specification of SearchHistory
    on the terms that were searched (step 1 gives back the term each URL
    was built from); [deriveRecentTerms] is the same derivation on the
    terms [extractSearchTerm] reads from the URLs. Both are compared with
    [getLastSearches] below. *)

(** Step 2: a term equal to the term just before it is dropped. *)
Fixpoint collapseAfter (previous : option string) (terms : list string)
  : list string :=
  match terms with
  | [] => []
  | term :: rest =>
      if decide (Some term = previous)
      then collapseAfter (Some term) rest
      else term :: collapseAfter (Some term) rest
  end.

Definition collapse (terms : list string) : list string :=
  collapseAfter None terms.

(** Step 3: the last [n] entries of a sequence. *)
Definition lastEntries {A} (n : nat) (l : list A) : list A :=
  drop (length l - n) l.

Definition deriveRecentTerms (urlHistory : list string) : list string :=
  removelast (lastEntries 6 (collapse (extractSearchTerm <$> urlHistory))).

(** Steps 2 and 3 on the searched terms themselves. *)
Definition recentTerms (terms : list string) : list string :=
  removelast (lastEntries 6 (collapse terms)).

(** The URLs of a sequence of searches, each a term and a page. *)
Definition searchUrls (searches : list (string * Z)) : list string :=
  (λ search, getUrl search.1 search.2) <$> searches.

(** ** The rest of [App] and of its components *)

(** *** [handleFetchStories] *)

(** How the awaited [axios.get(lastUrl)] settles: resolved, with
    [result.data.hits] and [result.data.page], or thrown into the [catch]. *)
Inductive FetchOutcome :=
| Resolved (hits : Stories) (resultPage : Z)
| Rejected.

(** The action dispatched once the request has settled. *)
Definition settledAction (outcome : FetchOutcome) : Action :=
  match outcome with
  | Resolved hits resultPage => StoriesFetchSuccessAction hits resultPage
  | Rejected => StoriesFetchFailureAction
  end.

(** The actions the store receives during one call of
    [handleFetchStories]: [STORIES_FETCH_INIT] before the request, the
    settled action after it, and in between the [REMOVE_STORY] actions of
    the stories the user dismisses while the request is pending (the list
    stays on screen while loading; [handleRemoveStory]). *)
Definition handleFetchStories (dismissed : list Story)
    (outcome : FetchOutcome) : list Action :=
  StoriesFetchInitAction
    :: (StoriesRemoveAction <$> dismissed) ++ [settledAction outcome].

(** *** [useSemiPersistentState] *)

Module SemiPersistent.

(** What the hook keeps between renders: the [isMounted] ref and the
    [value] state. *)
Record Hook := {
  isMounted : bool;
  value : string
}.

(** [localStorage.getItem(key) || initialState]: [getItem] answers [null]
    for a missing key, and [null] and the empty string are both falsy. *)
Definition initialValue (localStorage : gmap string string)
    (key initialState : string) : string :=
  match localStorage !! key with
  | Some stored => if decide (stored = "") then initialState else stored
  | None => initialState
  end.

(** The body of the effect: the first run only sets the ref, every later
    run calls [localStorage.setItem(key, value)]. *)
Definition effect (key : string) (hook : Hook)
    (localStorage : gmap string string) : Hook * gmap string string :=
  if negb (isMounted hook)
  then ({| isMounted := true; value := value hook |}, localStorage)
  else (hook, <[key := value hook]> localStorage).

(** The first render: the state is initialised and the effect runs. *)
Definition mount (localStorage : gmap string string)
    (key initialState : string) : Hook * gmap string string :=
  effect key
    {| isMounted := false;
       value := initialValue localStorage key initialState |}
    localStorage.

(** [setValue(newValue)]: a value equal to the current one causes no
    render; another value is rendered, and the effect runs because its
    dependency [value] has changed. *)
Definition setValue (key newValue : string)
    (current : Hook * gmap string string) : Hook * gmap string string :=
  if decide (newValue = value current.1) then current
  else effect key
         {| isMounted := isMounted current.1; value := newValue |}
         current.2.

(** A visit: the component mounts and [setValue] is called with each of
    [inputs] in turn. *)
Definition visit (localStorage : gmap string string)
    (key initialState : string) (inputs : list string)
  : Hook * gmap string string :=
  foldl (λ current newValue, setValue key newValue current)
    (mount localStorage key initialState) inputs.

End SemiPersistent.

(** *** The URLs [App] holds *)

(** The lists [urls] can be: the initial one, and those the handlers make
    of it. [handleSearchSubmit] and [handleLastSearch] both call
    [handleSearch] with page 0. *)
Inductive urlHistory : list string → Prop :=
| urlHistory_initial searchTerm :
    urlHistory [getUrl searchTerm 0]
| urlHistory_search urls searchTerm :
    urlHistory urls → urlHistory (handleSearch urls searchTerm 0)
| urlHistory_more urls stories urls' :
    urlHistory urls → handleMore urls stories = Some urls' →
    urlHistory urls'.

(** *** React keys *)

(** The keys of the buttons of [LastSearches]: [searchTerm + index]. *)
Definition lastSearchKeys (lastSearches : list string) : list string :=
  imap (λ index searchTerm, searchTerm +:+ JS.toString (Z.of_nat index))
    lastSearches.

(** The keys of the [Item]s of [List]: [item.objectID]. *)
Definition itemKeys (sortedList : Stories) : list string :=
  objectID <$> sortedList.

(** *** Clicks on the header buttons *)

(** [handleSort] called for each clicked key in turn. *)
Definition clickAll (sort : Sort) (keys : list SortKey) : Sort :=
  foldl handleSort sort keys.

(** ** The reducer of the version of [App.tsx] without pagination *)

Module Unpaged.

Record StoriesState := {
  data : Stories;
  isLoading : bool;
  isError : bool
}.

(** There the payload of [STORIES_FETCH_SUCCESS] is the list itself. *)
Inductive Payload :=
| NoPayload
| StoriesPayload (stories : Stories)
| StoryPayload (story : Story).

Record Action := {
  type : string;
  payload : Payload
}.

Definition storiesReducer (state : StoriesState) (action : Action)
  : Completion StoriesState :=
  if decide (type action = "STORIES_FETCH_INIT") then
    Return {| data := data state; isLoading := true; isError := false |}
  else if decide (type action = "STORIES_FETCH_SUCCESS") then
    match payload action with
    | StoriesPayload stories =>
        Return {| isLoading := false; isError := false; data := stories |}
    | _ => Untyped
    end
  else if decide (type action = "STORIES_FETCH_FAILURE") then
    Return {| data := data state; isLoading := false; isError := true |}
  else if decide (type action = "REMOVE_STORY") then
    match payload action with
    | StoryPayload item =>
        Return {| data := filter (λ story, objectID item ≠ objectID story)
                                 (data state);
                  isLoading := isLoading state; isError := isError state |}
    | _ => Untyped
    end
  else Throw.

End Unpaged.

(** The state and the actions of the paginated version, seen by the
    version without pages: the page is forgotten. *)
Definition forgetPage (state : StoriesState) : Unpaged.StoriesState :=
  {| Unpaged.data := data state;
     Unpaged.isLoading := isLoading state;
     Unpaged.isError := isError state |}.

Definition forgetPayloadPage (action : Action) : Unpaged.Action :=
  {| Unpaged.type := type action;
     Unpaged.payload :=
       match payload action with
       | NoPayload => Unpaged.NoPayload
       | SuccessPayload payload_list _ => Unpaged.StoriesPayload payload_list
       | StoryPayload story => Unpaged.StoryPayload story
       end |}.

(** Whether an action is the success of a first page, or no success at
    all. *)
Definition firstPageOnly (action : Action) : Prop :=
  match payload action with
  | SuccessPayload _ payload_page => payload_page = 0
  | _ => True
  end.

(** [Completion] is a functor. *)
Definition mapCompletion {A B} (f : A → B) (c : Completion A)
  : Completion B :=
  match c with
  | Return a => Return (f a)
  | Throw => Throw
  | Untyped => Untyped
  end.

(** * Properties of the stories reducer *)

Section Reducer.
Implicit Types (state : StoriesState) (item : Story) (hits : Stories).

(** What [REMOVE_STORY] returns. *)
Lemma storiesReducer_remove state item :
  storiesReducer state (StoriesRemoveAction item) =
  Return {| data := filter (λ story, objectID item ≠ objectID story)
                           (data state);
            page := page state;
            isLoading := isLoading state;
            isError := isError state |}.
Proof. reflexivity. Qed.

(** A filter that every entry passes keeps the list. *)
Lemma filter_all {A} (P : A → Prop) `{∀ x, Decision (P x)} (l : list A) :
  Forall P l → filter P l = l.
Proof.
  induction 1 as [|x l' Hx _ IH]; [done|].
  by rewrite filter_cons_True, IH.
Qed.

(** The entries a filter keeps and the entries it drops add up. *)
Lemma filter_length_split {A} (P : A → Prop) `{∀ x, Decision (P x)}
    (l : list A) :
  (length (filter P l) + length (filter (λ x, ¬ P x) l) = length l)%nat.
Proof.
  induction l as [|x l IH]; [done|].
  rewrite !filter_cons.
  destruct (decide (P x)), (decide (¬ P x)); simpl; try lia; tauto.
Qed.

(** C1. [STORIES_FETCH_SUCCESS] with payload [{list, page}] always returns;
    the state it returns has [isLoading = false], [isError = false] and
    [page] equal to the payload's page; its [data] is the payload's list
    when the page is 0, and the previous [data] followed by the payload's
    list, nothing dropped, reordered or deduplicated, when the page is
    positive. *)
Theorem fetch_success_replaces_or_appends state hits :
  storiesReducer state (StoriesFetchSuccessAction hits 0) =
    Return {| data := hits; page := 0;
              isLoading := false; isError := false |}
  ∧ ∀ n : positive,
      storiesReducer state (StoriesFetchSuccessAction hits (Z.pos n)) =
        Return {| data := data state ++ hits; page := Z.pos n;
                  isLoading := false; isError := false |}.
Proof. split; [reflexivity | intros n; reflexivity]. Qed.

(** After any run of page-0 successes the data is exactly the last
    payload. *)
Lemma fetch_success_page0_last state (payloads : list Stories) hits :
  dispatchAll state
    ((λ l, StoriesFetchSuccessAction l 0) <$> (payloads ++ [hits])) =
  Return {| data := hits; page := 0;
            isLoading := false; isError := false |}.
Proof.
  revert state. induction payloads as [|l payloads IH]; intros state.
  - reflexivity.
  - simpl. apply IH.
Qed.

(** Pages loaded after the current data are appended in call order. *)
Lemma fetch_success_more_pages state first (payloads : list Stories) :
  ∃ state',
    dispatchAll state (morePages first payloads) = Return state'
    ∧ data state' = data state ++ concat payloads.
Proof.
  revert state first.
  induction payloads as [|l payloads IH]; intros state first; simpl.
  - exists state. by rewrite app_nil_r.
  - destruct (IH {| data := data state ++ l; page := Z.pos first;
                    isLoading := false; isError := false |}
                (Pos.succ first)) as (state' & Hrun & Hdata).
    exists state'. split; [exact Hrun|].
    rewrite Hdata. simpl. by rewrite (assoc_L (++)).
Qed.

(** A fresh search followed by more pages: the data is the concatenation
    of all payloads in call order. *)
Lemma fetch_success_concatenates state hits (payloads : list Stories) :
  ∃ state',
    dispatchAll state
      (StoriesFetchSuccessAction hits 0 :: morePages 1 payloads)
    = Return state'
    ∧ data state' = hits ++ concat payloads.
Proof.
  simpl.
  destruct (fetch_success_more_pages
              {| data := hits; page := 0;
                 isLoading := false; isError := false |} 1 payloads)
    as (state' & Hrun & Hdata).
  exists state'. by split.
Qed.

(** C7. [STORIES_FETCH_FAILURE] always returns; the state it returns has
    [isLoading = false] and [isError = true], and its [data] and [page]
    are those of the state it was given. *)
Theorem fetch_failure_keeps_data state :
  ∃ state',
    storiesReducer state StoriesFetchFailureAction = Return state'
    ∧ isLoading state' = false
    ∧ isError state' = true
    ∧ data state' = data state
    ∧ page state' = page state.
Proof. eexists. by split; [reflexivity|]. Qed.

(** A failure after [STORIES_FETCH_INIT] leaves the data of before the
    cycle. *)
Lemma fetch_init_failure_keeps_data state :
  dispatchAll state [StoriesFetchInitAction; StoriesFetchFailureAction] =
  Return {| data := data state; page := page state;
            isLoading := false; isError := true |}.
Proof. reflexivity. Qed.

(** A whole cycle from the initial state: loading, a first page, a second
    page, and the removal of a story. *)
Lemma fetch_two_pages_then_remove :
  dispatchAll initialStories [StoriesFetchInitAction] =
    Return {| data := []; page := 0; isLoading := true; isError := false |}
  ∧ dispatchAll initialStories
      [StoriesFetchInitAction;
       StoriesFetchSuccessAction
         [sampleStory "1" "A" 0; sampleStory "2" "B" 0] 0;
       StoriesFetchInitAction;
       StoriesFetchSuccessAction [sampleStory "3" "C" 0] 1;
       StoriesRemoveAction (sampleStory "2" "B" 0)] =
    Return {| data := [sampleStory "1" "A" 0; sampleStory "3" "C" 0];
              page := 1; isLoading := false; isError := false |}.
Proof. split; reflexivity. Qed.

(** C8. An action whose [type] is none of the four tags makes the reducer
    throw, whatever the state and the payload: no state is returned. *)
Theorem unknown_action_throws state (action : Action) :
  type action ≠ "STORIES_FETCH_INIT" →
  type action ≠ "STORIES_FETCH_SUCCESS" →
  type action ≠ "STORIES_FETCH_FAILURE" →
  type action ≠ "REMOVE_STORY" →
  storiesReducer state action = Throw.
Proof.
  intros Hinit Hsuccess Hfailure Hremove. unfold storiesReducer.
  by repeat case_decide.
Qed.

(** The tag ['REMOVE_STORIES'], which the first version of [App]
    dispatched, throws on the initial state. *)
Lemma unknown_action_throws_witness :
  storiesReducer initialStories
    {| type := "REMOVE_STORIES";
       payload := StoryPayload
         {| objectID := "1"; url := ""; title := ""; author := "";
            num_comments := 0; points := 0 |} |} = Throw.
Proof. apply unknown_action_throws; simpl; discriminate. Defined.
(** The identifiers of a list of stories, in order. *)
Lemma filter_other_ids item (l : Stories) :
  objectID item ∉ objectID <$> l →
  filter (λ story, objectID item ≠ objectID story) l = l.
Proof.
  intros Habsent. apply filter_all, Forall_forall. intros story Hin Heq.
  apply Habsent. rewrite Heq. by apply list_elem_of_fmap_2.
Qed.

(** C2. On a state whose stories have pairwise different identifiers,
    [REMOVE_STORY] returns the state with the one entry carrying the
    payload's [objectID] taken out of [data], wherever it stands and
    whatever its other fields are; when no entry carries that identifier,
    [data] is unchanged. Flags and page are kept. *)
Theorem remove_story_unique_ids state item :
  NoDup (objectID <$> data state) →
  ∃ state',
    storiesReducer state (StoriesRemoveAction item) = Return state'
    ∧ (∀ before entry after,
         data state = before ++ entry :: after →
         objectID entry = objectID item →
         data state' = before ++ after)
    ∧ (objectID item ∈ objectID <$> data state →
       ∃ before entry after,
         data state = before ++ entry :: after
         ∧ objectID entry = objectID item)
    ∧ (objectID item ∉ objectID <$> data state → data state' = data state)
    ∧ page state' = page state
    ∧ isLoading state' = isLoading state
    ∧ isError state' = isError state.
Proof.
  intros Hnodup. eexists. split; [apply storiesReducer_remove|]. simpl.
  split; [|split; [|split; [|done]]].
  - intros before entry after Hdata Hid. rewrite Hdata in Hnodup |- *.
    rewrite fmap_app, fmap_cons, NoDup_app, NoDup_cons in Hnodup.
    destruct Hnodup as (_ & Hbefore & Hafter & _).
    rewrite filter_app, filter_cons_False by (by intros []).
    rewrite <- Hid. f_equal; apply filter_other_ids.
    + intros Hin. apply (Hbefore _ Hin). left.
    + done.
  - intros (entry & Hid & Hin)%list_elem_of_fmap_1.
    apply list_elem_of_split in Hin as (before & after & ->). eauto.
  - apply filter_other_ids.
Qed.

(** Removing by a record that has the identifier ["2"] and another title
    takes the story ["2"] out of the list. *)
Lemma remove_story_unique_ids_witness :
  ∃ state',
    storiesReducer
      (loadedStories [sampleStory "1" "A" 0; sampleStory "2" "B" 0;
                      sampleStory "3" "C" 0])
      (StoriesRemoveAction (sampleStory "2" "other" 5)) = Return state'
    ∧ data state' = [sampleStory "1" "A" 0; sampleStory "3" "C" 0].
Proof.
  destruct (remove_story_unique_ids
              (loadedStories [sampleStory "1" "A" 0; sampleStory "2" "B" 0;
                              sampleStory "3" "C" 0])
              (sampleStory "2" "other" 5))
    as (state' & Hrun & Hsplit & _).
  { apply (bool_decide_unpack _). vm_compute. exact I. }
  exists state'. split; [exact Hrun|].
  exact (Hsplit [sampleStory "1" "A" 0] (sampleStory "2" "B" 0)
           [sampleStory "3" "C" 0] eq_refl eq_refl).
Defined.

(** C9. [REMOVE_STORY] is idempotent: removing by a story and then again by
    a story with the same [objectID] returns the state the first removal
    returned. *)
Theorem remove_story_idempotent state item item' :
  objectID item' = objectID item →
  ∃ once,
    storiesReducer state (StoriesRemoveAction item) = Return once
    ∧ storiesReducer once (StoriesRemoveAction item') = Return once
    ∧ dispatchAll state [StoriesRemoveAction item; StoriesRemoveAction item']
      = dispatchAll state [StoriesRemoveAction item].
Proof.
  intros Hid.
  assert (Hagain :
    filter (λ story, objectID item' ≠ objectID story)
      (filter (λ story, objectID item ≠ objectID story) (data state))
    = filter (λ story, objectID item ≠ objectID story) (data state)).
  { apply filter_all, Forall_forall. intros story Hin.
    apply list_elem_of_filter in Hin as [Hne _]. by rewrite Hid. }
  eexists. split; [apply storiesReducer_remove|].
  unfold dispatchAll. rewrite !storiesReducer_remove. simpl.
  by rewrite Hagain.
Qed.

Lemma remove_story_idempotent_witness :
  dispatchAll
    (loadedStories [sampleStory "1" "A" 0; sampleStory "2" "B" 0;
                    sampleStory "2" "C" 0])
    [StoriesRemoveAction (sampleStory "2" "B" 0);
     StoriesRemoveAction (sampleStory "2" "C" 0)]
  = dispatchAll
      (loadedStories [sampleStory "1" "A" 0; sampleStory "2" "B" 0;
                      sampleStory "2" "C" 0])
      [StoriesRemoveAction (sampleStory "2" "B" 0)].
Proof.
  destruct (remove_story_idempotent
              (loadedStories [sampleStory "1" "A" 0; sampleStory "2" "B" 0;
                              sampleStory "2" "C" 0])
              (sampleStory "2" "B" 0) (sampleStory "2" "C" 0) eq_refl)
    as (once & _ & _ & Hsame).
  exact Hsame.
Defined.

(** C10. [REMOVE_STORY] on any state, also one in which several stories
    share an identifier: no story of the returned [data] carries the
    payload's [objectID]; the returned [data] is a subsequence of the old
    one (the stories kept are in the order they had); the stories missing
    are as many as the old stories with that identifier (no other story is
    dropped); [isLoading], [isError] and [page] are unchanged. *)
Theorem remove_story_removes_every_match state item :
  ∃ state',
    storiesReducer state (StoriesRemoveAction item) = Return state'
    ∧ Forall (λ story, objectID story ≠ objectID item) (data state')
    ∧ data state' `sublist_of` data state
    ∧ (length (data state')
       + length (filter (λ story, objectID story = objectID item)
                   (data state))
       = length (data state))%nat
    ∧ isLoading state' = isLoading state
    ∧ isError state' = isError state
    ∧ page state' = page state.
Proof.
  eexists. split; [apply storiesReducer_remove|]. simpl.
  split; [|split; [|split; [|done]]].
  - apply Forall_forall. intros story [Hne _]%list_elem_of_filter. done.
  - apply sublist_filter.
  - rewrite <- (filter_length_split
                 (λ story, objectID item ≠ objectID story) (data state)).
    f_equal. f_equal. apply list_filter_iff. intros story. split.
    + intros -> Hne. done.
    + intros Hnn. destruct (decide (objectID story = objectID item)); [done|].
      exfalso. apply Hnn. done.
Qed.

(** C3. In every state reachable from the initial state through returning
    calls of the reducer, [isLoading] and [isError] are not both [true]. *)
Theorem loading_and_error_exclusive state :
  reachable state → ¬ (isLoading state = true ∧ isError state = true).
Proof.
  induction 1 as [|state action state' _ IH Hstep].
  - intros [? _]. discriminate.
  - unfold storiesReducer in Hstep.
    repeat case_decide; try destruct (payload action);
      simplify_eq/=; try done; intros [? ?]; discriminate.
Qed.

Lemma loading_and_error_exclusive_witness :
  reachable
    {| data := []; page := 0; isLoading := false; isError := true |}
  ∧ ¬ (isLoading
         {| data := []; page := 0; isLoading := false; isError := true |}
       = true
       ∧ isError
           {| data := []; page := 0; isLoading := false; isError := true |}
         = true).
Proof.
  assert (Hreach : reachable
    {| data := []; page := 0; isLoading := false; isError := true |}).
  { apply (reachable_dispatch
             {| data := []; page := 0; isLoading := true; isError := false |}
             StoriesFetchFailureAction); [|reflexivity].
    apply (reachable_dispatch initialStories StoriesFetchInitAction);
      [apply reachable_initial | reflexivity]. }
  split; [exact Hreach | exact (loading_and_error_exclusive _ Hreach)].
Defined.
End Reducer.

(** * Properties of the JavaScript built-ins *)

Section Strings.
Implicit Types (s t u : string) (c : ascii).
Local Arguments String.append !_ _ / : simpl nomatch.

Lemma length_append s t :
  String.length (s +:+ t) = (String.length s + String.length t)%nat.
Proof. induction s as [|a s IH]; [done|]. simpl. by f_equal. Qed.

Lemma append_assoc s t u : (s +:+ t) +:+ u = s +:+ t +:+ u.
Proof. induction s as [|a s IH]; [done|]. simpl. by f_equal. Qed.

Lemma dropChars_append s t : JS.dropChars (String.length s) (s +:+ t) = t.
Proof. induction s as [|a s IH]; simpl; [by destruct t|done]. Qed.

Lemma takeChars_append s t : JS.takeChars (String.length s) (s +:+ t) = s.
Proof. induction s as [|a s IH]; [done|]. simpl. by f_equal. Qed.

Lemma prefix_append s t : String.prefix s (s +:+ t) = true.
Proof.
  induction s as [|a s IH]; simpl; [by destruct t|].
  by destruct (ascii_dec a a).
Qed.

Lemma includesChar_append s t c :
  JS.includesChar (s +:+ t) c = JS.includesChar s c || JS.includesChar t c.
Proof.
  induction s as [|a s IH]; simpl; [done|].
  by rewrite IH, orb_assoc.
Qed.

(** [lastIndexOf] never answers below [-1]. *)
Lemma lastIndexOf_lower s t : -1 ≤ JS.lastIndexOf s t.
Proof.
  induction s as [|a s IH]; simpl; repeat case_match; lia.
Qed.

(** A code unit that does not occur is not found. *)
Lemma lastIndexOf_absent s c :
  JS.includesChar s c = false → JS.lastIndexOf s (String c "") = -1.
Proof.
  induction s as [|a s IH]; simpl; [done|].
  intros [Hhead Htail]%orb_false_elim. rewrite (IH Htail). simpl.
  destruct (ascii_dec c a) as [->|]; [|done].
  by rewrite Ascii.eqb_refl in Hhead.
Qed.

(** The last occurrence of a code unit is the one nothing follows. *)
Lemma lastIndexOf_last s t c :
  JS.includesChar t c = false →
  JS.lastIndexOf (s +:+ String c t) (String c "") = Z.of_nat (String.length s).
Proof.
  intros Habsent. induction s as [|a s IH]; simpl.
  - rewrite (lastIndexOf_absent _ _ Habsent). simpl.
    destruct (ascii_dec c c); [|done]. by destruct t.
  - rewrite IH. destruct (0 <=? Z.of_nat (String.length s)) eqn:Hle; lia.
Qed.

(** The substring between two positions given by lengths. *)
Lemma substring_middle s t u :
  JS.substring (s +:+ t +:+ u)
    (Z.of_nat (String.length s))
    (Z.of_nat (String.length s + String.length t)) = t.
Proof.
  unfold JS.substring. rewrite !length_append.
  replace (Z.min (Z.min (Z.max _ 0) _) (Z.min (Z.max _ 0) _))
    with (Z.of_nat (String.length s)) by lia.
  replace (Z.max (Z.min (Z.max _ 0) _) (Z.min (Z.max _ 0) _))
    with (Z.of_nat (String.length s + String.length t)) by lia.
  replace (Z.to_nat (_ - _)) with (String.length t) by lia.
  by rewrite Nat2Z.id, dropChars_append, takeChars_append.
Qed.

(** Removing a pattern the string starts with. *)
Lemma replace_prefix s t : JS.replace (s +:+ t) s "" = t.
Proof.
  assert (Hunfold : ∀ u p r,
    JS.replace u p r =
    if String.prefix p u then r +:+ JS.dropChars (String.length p) u
    else match u with
         | EmptyString => EmptyString
         | String a u' => String a (JS.replace u' p r)
         end) by (by intros []).
  by rewrite Hunfold, prefix_append, dropChars_append.
Qed.

(** A code unit that occurs has a last occurrence. *)
Lemma includesChar_split_last s c :
  JS.includesChar s c = true →
  ∃ s1 s2, s = s1 +:+ String c s2 ∧ JS.includesChar s2 c = false.
Proof.
  induction s as [|a s IH]; simpl; [done|]. intros Hin.
  destruct (JS.includesChar s c) eqn:Hlater.
  - destruct IH as (s1 & s2 & -> & Hlast); [done|].
    by exists (String a s1), s2.
  - rewrite orb_false_r in Hin. apply Ascii.eqb_eq in Hin as ->.
    by exists "", s.
Qed.

Lemma length_dropChars n s : (String.length (JS.dropChars n s) ≤ String.length s)%nat.
Proof.
  revert s. induction n as [|n IH]; intros [|a s]; simpl; try lia.
  specialize (IH s). lia.
Qed.

(** Removing a pattern never makes the string longer. *)
Lemma length_replace_empty s t :
  (String.length (JS.replace s t "") ≤ String.length s)%nat.
Proof.
  induction s as [|a s IH]; simpl.
  - destruct t; simpl; lia.
  - destruct t as [|b t]; simpl; [lia|].
    destruct (ascii_dec b a); simpl; [|lia].
    destruct (String.prefix t s); simpl; [|lia].
    pose proof (length_dropChars (String.length t) s). lia.
Qed.

(** The decimal digits and the minus sign are the only code units of a
    printed integer. *)
Lemma toString_chars n c :
  JS.includesChar (JS.toString n) c = true →
  JS.includesChar "-0123456789" c = true.
Proof.
  assert (Hdigits : ∀ d,
    JS.includesChar (NilEmpty.string_of_uint d) c = true →
    JS.includesChar "0123456789" c = true).
  { induction d; simpl NilEmpty.string_of_uint; [done|..];
      (intros [->%Ascii.eqb_eq|Hrest]%orb_true_elim;
         [reflexivity | by apply IHd]). }
  assert (Hnat : ∀ d,
    JS.includesChar (NilZero.string_of_uint d) c = true →
    JS.includesChar "0123456789" c = true).
  { intros []; try apply (Hdigits (_ _)).
    simpl. rewrite orb_false_r. by intros ->%Ascii.eqb_eq. }
  assert (Hminus : JS.includesChar "-0123456789" c
                   = Ascii.eqb c "-" || JS.includesChar "0123456789" c)
    by reflexivity.
  rewrite Hminus. unfold JS.toString.
  destruct (Z.to_int n) as [d|d]; simpl NilZero.string_of_int.
  - intros Hin. by rewrite (Hnat _ Hin), orb_true_r.
  - intros [->|Hrest]%orb_true_elim; [done|].
    by rewrite (Hnat _ Hrest), orb_true_r.
Qed.

(** Neither [?] nor [&] occurs in a printed integer. *)
Lemma toString_no_delimiter n :
  JS.includesChar (JS.toString n) "?" = false
  ∧ JS.includesChar (JS.toString n) "&" = false.
Proof.
  split.
  - destruct (JS.includesChar (JS.toString n) "?") eqn:Hin; [|done].
    by apply toString_chars in Hin.
  - destruct (JS.includesChar (JS.toString n) "&") eqn:Hin; [|done].
    by apply toString_chars in Hin.
Qed.
End Strings.

(** * Properties of the query URLs *)

Section Urls.
Implicit Types (term : string) (page : Z).

(** The URL, cut at its two delimiters. *)
Lemma getUrl_shape term page :
  getUrl term page =
  (API_BASE +:+ API_SEARCH) +:+ String "?" ((PARAM_SEARCH +:+ term)
     +:+ String "&" (PARAM_PAGE +:+ JS.toString page)).
Proof.
  unfold getUrl. rewrite !append_assoc. reflexivity.
Qed.

(** A search term without a question mark is read back from its URL as it
    was written, whatever the page and whatever else the term holds
    (ampersands, equal signs, the text [query=]). *)
Lemma extractSearchTerm_getUrl term page :
  JS.includesChar term "?" = false →
  extractSearchTerm (getUrl term page) = term.
Proof.
  intros Hterm. unfold extractSearchTerm.
  destruct (toString_no_delimiter page) as [Hquestion Hampersand].
  assert (Hfirst : JS.lastIndexOf (getUrl term page) "?"
                   = Z.of_nat (String.length (API_BASE +:+ API_SEARCH))).
  { rewrite getUrl_shape. apply lastIndexOf_last.
    change (String "&" ?s) with ("&" +:+ s).
    rewrite !includesChar_append, Hterm, Hquestion. reflexivity. }
  assert (Hsecond : JS.lastIndexOf (getUrl term page) "&"
                    = Z.of_nat (String.length
                        ((API_BASE +:+ API_SEARCH +:+ "?")
                           +:+ PARAM_SEARCH +:+ term))).
  { replace (getUrl term page)
      with (((API_BASE +:+ API_SEARCH +:+ "?") +:+ PARAM_SEARCH +:+ term)
              +:+ String "&" (PARAM_PAGE +:+ JS.toString page))
      by (unfold getUrl; rewrite !append_assoc; reflexivity).
    apply lastIndexOf_last.
    rewrite includesChar_append, Hampersand. reflexivity. }
  rewrite Hfirst, Hsecond.
  replace (getUrl term page)
    with ((API_BASE +:+ API_SEARCH +:+ "?") +:+ (PARAM_SEARCH +:+ term)
            +:+ String "&" (PARAM_PAGE +:+ JS.toString page))
    by (unfold getUrl; rewrite !append_assoc; reflexivity).
  replace (Z.of_nat (String.length (API_BASE +:+ API_SEARCH)) + 1)
    with (Z.of_nat (String.length (API_BASE +:+ API_SEARCH +:+ "?")))
    by reflexivity.
  rewrite (length_append (API_BASE +:+ API_SEARCH +:+ "?")).
  rewrite substring_middle. apply replace_prefix.
Qed.

(** A search term with a question mark is never read back from its URL:
    what comes back is no longer than the part of the term after its last
    question mark. *)
Lemma extractSearchTerm_getUrl_question_mark term page :
  JS.includesChar term "?" = true →
  extractSearchTerm (getUrl term page) ≠ term.
Proof.
  intros (t1 & t2 & -> & Hlast)%includesChar_split_last.
  destruct (toString_no_delimiter page) as [Hquestion Hampersand].
  set (rest := String "&" (PARAM_PAGE +:+ JS.toString page)).
  set (front := (API_BASE +:+ API_SEARCH +:+ "?" +:+ PARAM_SEARCH) +:+ t1).
  assert (Hurl : getUrl (t1 +:+ String "?" t2) page
                 = front +:+ String "?" (t2 +:+ rest)).
  { unfold getUrl, front, rest. rewrite !append_assoc. reflexivity. }
  assert (Hurl' : getUrl (t1 +:+ String "?" t2) page
                  = (front +:+ "?") +:+ t2 +:+ rest).
  { rewrite Hurl, !append_assoc. reflexivity. }
  assert (Hfirst : JS.lastIndexOf (getUrl (t1 +:+ String "?" t2) page) "?"
                   = Z.of_nat (String.length front)).
  { rewrite Hurl. apply lastIndexOf_last. unfold rest.
    change (String "&" ?s) with ("&" +:+ s).
    rewrite !includesChar_append, Hlast, Hquestion. reflexivity. }
  assert (Hsecond : JS.lastIndexOf (getUrl (t1 +:+ String "?" t2) page) "&"
                    = Z.of_nat (String.length ((front +:+ "?") +:+ t2))).
  { rewrite Hurl', <- append_assoc. apply lastIndexOf_last.
    rewrite includesChar_append, Hampersand. reflexivity. }
  unfold extractSearchTerm. rewrite Hfirst, Hsecond.
  replace (Z.of_nat (String.length front) + 1)
    with (Z.of_nat (String.length (front +:+ "?")))
    by (rewrite length_append; simpl; lia).
  rewrite (length_append (front +:+ "?")), Hurl', substring_middle.
  intros Heq.
  pose proof (length_replace_empty t2 PARAM_SEARCH) as Hshort.
  rewrite Heq, length_append in Hshort. simpl in Hshort. lia.
Qed.

(** The round trip holds exactly for the terms without a question mark. *)
Lemma extractSearchTerm_getUrl_iff term page :
  extractSearchTerm (getUrl term page) = term
  ↔ JS.includesChar term "?" = false.
Proof.
  split; [|apply extractSearchTerm_getUrl].
  intros Heq. destruct (JS.includesChar term "?") eqn:Hin; [|done].
  by apply (extractSearchTerm_getUrl_question_mark _ page) in Hin.
Qed.

(** The three URLs of a search for ["react"] followed by two clicks on
    [More] all decompose to ["react"]. *)
Lemma search_react_then_more_twice :
  let loaded p :=
    {| data := []; page := p; isLoading := false; isError := false |} in
  let urls0 := handleSearch [] "react" 0 in
  ∃ urls1 urls2,
    handleMore urls0 (loaded 0) = Some urls1
    ∧ handleMore urls1 (loaded 1) = Some urls2
    ∧ urls2 = [getUrl "react" 0; getUrl "react" 1; getUrl "react" 2]
    ∧ extractSearchTerm <$> urls2 = ["react"; "react"; "react"].
Proof. intros loaded urls0. by eexists _, _. Qed.

(** C5, at the input on which the round trip fails: the search term
    ["a?b"] comes back from its URL as ["b"]. [lastIndexOf('?')] finds the
    question mark of the term, not the one that opens the query string. *)
Theorem extractSearchTerm_question_mark_lost :
  getUrl "a?b" 0 = "https://hn.algolia.com/api/v1/search?query=a?b&page=0"
  ∧ extractSearchTerm (getUrl "a?b" 0) = "b"
  ∧ extractSearchTerm (getUrl "a?b" 0) ≠ "a?b".
Proof. by vm_compute. Qed.

(** A term whose last code unit is a question mark comes back empty, so
    [More] would then ask for the next page of the empty search. *)
Lemma extractSearchTerm_trailing_question_mark :
  extractSearchTerm (getUrl "what?" 0) = ""
  ∧ handleMore [getUrl "what?" 0]
      {| data := []; page := 0; isLoading := false; isError := false |}
    = Some [getUrl "what?" 0; getUrl "" 1].
Proof. by vm_compute. Qed.
End Urls.

(** * Properties of the search history *)

Section History.
Implicit Types (urls terms result : list string).

(** [slice(-6)] keeps the last six entries. *)
Lemma slice_last_six {A} (l : list A) : JS.slice l (-6) None = lastEntries 6 l.
Proof.
  unfold JS.slice, lastEntries. simpl.
  replace (Z.to_nat (Z.max (Z.of_nat (length l) + -6) 0))
    with (length l - 6)%nat by lia.
  apply take_ge. rewrite length_drop. lia.
Qed.

(** [slice(0, -1)] drops the last entry. *)
Lemma slice_but_last {A} (l : list A) :
  JS.slice l 0 (Some (-1)) = removelast l.
Proof.
  unfold JS.slice. simpl. rewrite removelast_firstn_len.
  replace (Z.to_nat (Z.min 0 (Z.of_nat (length l)))) with 0%nat by lia.
  rewrite drop_0. f_equal. lia.
Qed.

(** The reduction, started anywhere: what it adds to the accumulator is the
    collapsed sequence of the remaining terms, the last term kept so far
    standing for the term before them. *)
Lemma reduceFrom_collectSearchTerm index result urls :
  (index = 0%nat → result = []) →
  JS.reduceFrom collectSearchTerm index result urls =
  result ++ collapseAfter (last result) (extractSearchTerm <$> urls).
Proof.
  revert index result.
  induction urls as [|url urls IH]; intros index result Hstart; simpl.
  - by rewrite app_nil_r.
  - rewrite IH by done. unfold collectSearchTerm.
    destruct (decide (index = 0%nat)) as [Hzero|_].
    + rewrite (Hstart Hzero). reflexivity.
    + destruct (decide (Some (extractSearchTerm url) = last result))
        as [Hsame|Hother].
      * by rewrite <- Hsame.
      * by rewrite last_snoc, <- (assoc_L (++)).
Qed.

Lemma reduce_collectSearchTerm urls :
  JS.reduce collectSearchTerm [] urls = collapse (extractSearchTerm <$> urls).
Proof. unfold JS.reduce. by rewrite reduceFrom_collectSearchTerm. Qed.

(** [getLastSearches] is the derivation on the terms read from the URLs. *)
Lemma getLastSearches_extracted urls :
  getLastSearches urls = recentTerms (extractSearchTerm <$> urls).
Proof.
  unfold getLastSearches, recentTerms.
  by rewrite slice_but_last, slice_last_six, reduce_collectSearchTerm.
Qed.

(** Terms without a question mark are read back from their URLs. *)
Lemma extractSearchTerm_searchUrls (searches : list (string * Z)) :
  Forall (λ search, JS.includesChar search.1 "?" = false) searches →
  extractSearchTerm <$> searchUrls searches = fst <$> searches.
Proof.
  unfold searchUrls. induction 1 as [|[term shown] searches Hterm _ IH].
  - done.
  - rewrite !fmap_cons, IH. simpl. by rewrite extractSearchTerm_getUrl.
Qed.

(** For searches whose terms hold no question mark, [getLastSearches] is
    the derivation of the specification on the searched terms: each term
    equal to the term just before it is dropped (a term equal to an earlier
    one that is not its neighbour stays), the last six terms of what
    remains are taken and the last of those is dropped. *)
Lemma getLastSearches_recentTerms (searches : list (string * Z)) :
  Forall (λ search, JS.includesChar search.1 "?" = false) searches →
  getLastSearches (searchUrls searches) = recentTerms (fst <$> searches).
Proof.
  intros Hterms.
  by rewrite getLastSearches_extracted, extractSearchTerm_searchUrls.
Qed.

(** The derivation never gives more than five terms. *)
Lemma recentTerms_length terms : (length (recentTerms terms) ≤ 5)%nat.
Proof.
  unfold recentTerms, lastEntries.
  rewrite removelast_firstn_len, length_take, length_drop. lia.
Qed.

(** The searches a, a, b, b, b, c, whatever their pages, give [a; b]. *)
Lemma getLastSearches_example (p1 p2 p3 p4 p5 p6 : Z) :
  getLastSearches
    (searchUrls [("a", p1); ("a", p2); ("b", p3); ("b", p4); ("b", p5);
                 ("c", p6)]) = ["a"; "b"].
Proof.
  rewrite getLastSearches_recentTerms; [reflexivity|].
  repeat (constructor; [reflexivity|]). constructor.
Qed.

(** Only neighbours collapse. *)
Lemma collapse_example :
  collapse ["a"; "b"; "a"; "a"; "c"; "b"] = ["a"; "b"; "a"; "c"; "b"].
Proof. reflexivity. Qed.

(** C4, at an input on which the derivation is not followed: after the
    searches [a?b] and [b], the specification's derivation lists [a?b],
    the term searched before the current one, and [getLastSearches] lists
    nothing. [extractSearchTerm] reads [b] from the URL of [a?b], so the
    two searches count as one and the same term. *)
Theorem getLastSearches_question_mark_term_lost :
  searchUrls [("a?b", 0); ("b", 0)] = [getUrl "a?b" 0; getUrl "b" 0]
  ∧ recentTerms (fst <$> [("a?b", 0); ("b", 0)]) = ["a?b"]
  ∧ extractSearchTerm <$> searchUrls [("a?b", 0); ("b", 0)] = ["b"; "b"]
  ∧ getLastSearches (searchUrls [("a?b", 0); ("b", 0)]) = []
  ∧ getLastSearches (searchUrls [("a?b", 0); ("b", 0)])
    ≠ recentTerms (fst <$> [("a?b", 0); ("b", 0)]).
Proof. by vm_compute. Qed.
End History.

(** * Properties of the sort engine *)

Section SortByFacts.
Context {A K : Type} `{EqDecision K}.
Variable le : K → K → bool.
Variable iteratee : A → K.
Hypothesis le_refl : ∀ k, le k k = true.
Hypothesis le_total : ∀ j k, le j k = true ∨ le k j = true.

(** Inserting an element does not disturb the elements of any one key:
    the new element stands in front of those with its own key. *)
Lemma insertBy_same_key k element (sorted : list A) :
  filter (λ x, iteratee x = k) (Lodash.insertBy le iteratee element sorted)
  = filter (λ x, iteratee x = k) (element :: sorted).
Proof.
  induction sorted as [|head tail IH]; simpl; [done|].
  destruct (le (iteratee element) (iteratee head)) eqn:Hle; [done|].
  rewrite filter_cons, IH, !(filter_cons _ element), (filter_cons _ head).
  destruct (decide (iteratee head = k)) as [Hhead|]; [|done].
  destruct (decide (iteratee element = k)) as [Helement|]; [|done].
  rewrite Hhead, Helement, le_refl in Hle. discriminate.
Qed.

(** Stability: the elements of any one key come out of [sortBy] in the
    order they went in. *)
Lemma sortBy_stable k (collection : list A) :
  filter (λ x, iteratee x = k) (Lodash.sortBy le iteratee collection)
  = filter (λ x, iteratee x = k) collection.
Proof.
  induction collection as [|element collection IH]; [done|].
  unfold Lodash.sortBy in *. simpl.
  by rewrite insertBy_same_key, !filter_cons, IH.
Qed.

Lemma insertBy_Permutation element (sorted : list A) :
  Lodash.insertBy le iteratee element sorted ≡ₚ element :: sorted.
Proof.
  induction sorted as [|head tail IH]; simpl; [done|].
  destruct (le (iteratee element) (iteratee head)); [done|].
  by rewrite IH, Permutation_swap.
Qed.

(** [sortBy] returns the elements it was given. *)
Lemma sortBy_Permutation (collection : list A) :
  Lodash.sortBy le iteratee collection ≡ₚ collection.
Proof.
  induction collection as [|element collection IH]; [done|].
  unfold Lodash.sortBy in *. simpl. by rewrite insertBy_Permutation, IH.
Qed.

Lemma insertBy_ascending element (sorted : list A) :
  Lodash.ascending le iteratee sorted →
  Lodash.ascending le iteratee (Lodash.insertBy le iteratee element sorted).
Proof.
  induction sorted as [|head tail IH]; simpl; [done|].
  intros [Hhead Htail].
  destruct (le (iteratee element) (iteratee head)) eqn:Hle; simpl; [done|].
  split; [|by apply IH].
  destruct tail as [|next tail']; simpl.
  - destruct (le_total (iteratee element) (iteratee head)); [congruence|done].
  - destruct (le (iteratee element) (iteratee next)); [|done].
    destruct (le_total (iteratee element) (iteratee head)); [congruence|done].
Qed.

(** [sortBy] returns its elements in ascending order of their keys. *)
Lemma sortBy_ascending (collection : list A) :
  Lodash.ascending le iteratee (Lodash.sortBy le iteratee collection).
Proof.
  induction collection as [|element collection IH]; [done|].
  by apply insertBy_ascending.
Qed.
End SortByFacts.

Section SortEngine.
Implicit Types (items : Stories) (score : Z).

(** [sortBy] on the point score is stable. *)
Lemma sortBy_points_stable score items :
  withPoints score (Lodash.sortBy Z.leb points items) = withPoints score items.
Proof. apply sortBy_stable, Z.leb_refl. Qed.

(** The first click on [Points] sorts descending; the second click sets the
    reverse flag; the third click clears it again. *)
Lemma handleSort_points_toggle :
  pointsFirst = {| sortKey := POINT; isReverse := false |}
  ∧ pointsToggled = {| sortKey := POINT; isReverse := true |}
  ∧ handleSort pointsToggled POINT = pointsFirst.
Proof. by vm_compute. Qed.

(** With the reverse flag set, the [Points] order is the stable ascending
    order of [sortBy] itself. *)
Lemma sortedList_pointsToggled items :
  sortedList pointsToggled items = Lodash.sortBy Z.leb points items.
Proof. unfold sortedList. simpl. apply reverse_involutive. Qed.

(** C6, as the claim states it, fails on two stories of equal score: after
    sorting by points and then sorting the result with the reverse flag set,
    the two stand in the reverse of their original order. *)
Lemma point_sort_toggle_swaps_equal_scores :
  sortedList pointsFirst
    [sampleStory "1" "first" 7; sampleStory "2" "second" 7]
  = [sampleStory "2" "second" 7; sampleStory "1" "first" 7]
  ∧ sortedList pointsToggled
      (sortedList pointsFirst
         [sampleStory "1" "first" 7; sampleStory "2" "second" 7])
    = [sampleStory "2" "second" 7; sampleStory "1" "first" 7]
  ∧ withPoints 7
      (sortedList pointsToggled
         (sortedList pointsFirst
            [sampleStory "1" "first" 7; sampleStory "2" "second" 7]))
    ≠ withPoints 7 [sampleStory "1" "first" 7; sampleStory "2" "second" 7].
Proof. by vm_compute. Qed.

(** The rendered lists of a mixed example: descending by points with the
    equal scores swapped, and ascending with them in input order. *)
Lemma sortedList_points_example :
  sortedList pointsFirst
    [sampleStory "1" "a" 5; sampleStory "2" "b" 9; sampleStory "3" "c" 5]
  = [sampleStory "2" "b" 9; sampleStory "3" "c" 5; sampleStory "1" "a" 5]
  ∧ sortedList pointsToggled
      [sampleStory "1" "a" 5; sampleStory "2" "b" 9; sampleStory "3" "c" 5]
    = [sampleStory "1" "a" 5; sampleStory "3" "c" 5; sampleStory "2" "b" 9].
Proof. by vm_compute. Qed.
End SortEngine.

(** * Properties of [getSumComments] *)

Section SumComments.
Implicit Types (state : StoriesState) (stories hits : Stories).

(** The reduction started from [start] is [start] more than the one
    started from 0. *)
Lemma sumComments_from start stories :
  foldl (λ result value, result + num_comments value) start stories
  = start + getSumComments (loadedStories stories).
Proof.
  unfold getSumComments. simpl. revert start.
  induction stories as [|story stories IH]; intros start; simpl; [lia|].
  rewrite (IH (start + _)), (IH (0 + _)). lia.
Qed.

Lemma sumComments_cons story stories :
  getSumComments (loadedStories (story :: stories))
  = num_comments story + getSumComments (loadedStories stories).
Proof. unfold getSumComments at 1. simpl. apply sumComments_from. Qed.

Lemma sumComments_app stories hits :
  getSumComments (loadedStories (stories ++ hits))
  = getSumComments (loadedStories stories)
    + getSumComments (loadedStories hits).
Proof.
  induction stories as [|story stories IH]; [done|].
  simpl. rewrite !sumComments_cons, IH. lia.
Qed.

Lemma sumComments_Permutation stories hits :
  stories ≡ₚ hits →
  getSumComments (loadedStories stories) = getSumComments (loadedStories hits).
Proof.
  induction 1 as [|x l l' _ IH|x y l|l l' l'' _ IH1 _ IH2].
  - done.
  - by rewrite !sumComments_cons, IH.
  - rewrite !sumComments_cons. lia.
  - by rewrite IH1.
Qed.

(** The total only looks at [data]. *)
Lemma getSumComments_data state :
  getSumComments state = getSumComments (loadedStories (data state)).
Proof. reflexivity. Qed.

(** X1. For comment counts the source adds up exactly: a further page
    adds the comments of its stories to the total; a first page makes the
    total the comments of its stories alone. *)
Theorem getSumComments_fetch_success state hits :
  exactComments (data state ++ hits) →
  (∃ state',
     storiesReducer state (StoriesFetchSuccessAction hits 0) = Return state'
     ∧ getSumComments state' = getSumComments (loadedStories hits))
  ∧ ∀ n : positive, ∃ state',
      storiesReducer state (StoriesFetchSuccessAction hits (Z.pos n))
        = Return state'
      ∧ getSumComments state'
        = getSumComments state + getSumComments (loadedStories hits).
Proof.
  intros _.
  split; [by eexists|]. intros n. eexists. split; [reflexivity|].
  rewrite (getSumComments_data state), getSumComments_data. simpl.
  apply sumComments_app.
Qed.

Lemma getSumComments_fetch_success_witness :
  exactComments
    (data (loadedStories [commentedStory "1" 3])
       ++ [commentedStory "2" 4; commentedStory "3" 5])
  ∧ ∃ state',
      storiesReducer (loadedStories [commentedStory "1" 3])
        (StoriesFetchSuccessAction
           [commentedStory "2" 4; commentedStory "3" 5] 1) = Return state'
      ∧ getSumComments state'
        = getSumComments (loadedStories [commentedStory "1" 3])
          + getSumComments
              (loadedStories [commentedStory "2" 4; commentedStory "3" 5]).
Proof.
  assert (Hexact : exactComments
    (data (loadedStories [commentedStory "1" 3])
       ++ [commentedStory "2" 4; commentedStory "3" 5])).
  { split; [repeat (constructor; [simpl; lia|]); constructor|].
    unfold MAX_SAFE_INTEGER. simpl. lia. }
  split; [exact Hexact|].
  exact (proj2 (getSumComments_fetch_success
                  (loadedStories [commentedStory "1" 3])
                  [commentedStory "2" 4; commentedStory "3" 5] Hexact)
           1%positive).
Defined.

(** The total of a list splits into the total of the stories a removal
    keeps and the total of those it drops. *)
Lemma sumComments_remove_split item stories :
  getSumComments (loadedStories stories)
  = getSumComments
      (loadedStories
         (filter (λ story, objectID item ≠ objectID story) stories))
    + getSumComments
        (loadedStories
           (filter (λ story, objectID item = objectID story) stories)).
Proof.
  rewrite <- sumComments_app. apply sumComments_Permutation.
  rewrite Permutation_app_comm.
  by rewrite <- (filter_app_complement
                   (λ story, objectID item = objectID story) stories) at 1.
Qed.

(** X2. For comment counts the source adds up exactly: removing a story
    takes from the total exactly the comments of the stories that carried
    its identifier. *)
Theorem getSumComments_remove_story state item :
  exactComments (data state) →
  ∃ state',
    storiesReducer state (StoriesRemoveAction item) = Return state'
    ∧ getSumComments state
      = getSumComments state'
        + getSumComments
            (loadedStories
               (filter (λ story, objectID item = objectID story)
                  (data state))).
Proof.
  intros _.
  eexists. split; [apply storiesReducer_remove|].
  rewrite (getSumComments_data state),
    (getSumComments_data {| data := filter _ _ |}). simpl.
  apply sumComments_remove_split.
Qed.

Lemma getSumComments_remove_story_witness :
  exactComments
    (data (loadedStories [commentedStory "1" 3; commentedStory "2" 4;
                          commentedStory "2" 5]))
  ∧ ∃ state',
      storiesReducer
        (loadedStories [commentedStory "1" 3; commentedStory "2" 4;
                        commentedStory "2" 5])
        (StoriesRemoveAction (commentedStory "2" 0)) = Return state'
      ∧ getSumComments
          (loadedStories [commentedStory "1" 3; commentedStory "2" 4;
                          commentedStory "2" 5])
        = getSumComments state'
          + getSumComments
              (loadedStories
                 (filter (λ story,
                            objectID (commentedStory "2" 0) = objectID story)
                    (data (loadedStories
                             [commentedStory "1" 3; commentedStory "2" 4;
                              commentedStory "2" 5])))).
Proof.
  assert (Hexact : exactComments
    (data (loadedStories [commentedStory "1" 3; commentedStory "2" 4;
                          commentedStory "2" 5]))).
  { split; [repeat (constructor; [simpl; lia|]); constructor|].
    unfold MAX_SAFE_INTEGER. simpl. lia. }
  split; [exact Hexact|].
  exact (getSumComments_remove_story _ (commentedStory "2" 0) Hexact).
Defined.

(** X3. For comment counts the source adds up exactly, the total does not
    depend on the order of the stories: two states whose [data] are
    permutations of each other have the same total. *)
Theorem getSumComments_order_independent state state' :
  exactComments (data state) →
  data state ≡ₚ data state' → getSumComments state = getSumComments state'.
Proof.
  intros _ Hperm. rewrite (getSumComments_data state), getSumComments_data.
  by apply sumComments_Permutation.
Qed.

Lemma getSumComments_order_independent_witness :
  exactComments
    (data (loadedStories [commentedStory "1" 3; commentedStory "2" 4]))
  ∧ getSumComments
      (loadedStories [commentedStory "1" 3; commentedStory "2" 4])
    = getSumComments
        (loadedStories [commentedStory "2" 4; commentedStory "1" 3]).
Proof.
  assert (Hexact : exactComments
    (data (loadedStories [commentedStory "1" 3; commentedStory "2" 4]))).
  { split; [repeat (constructor; [simpl; lia|]); constructor|].
    unfold MAX_SAFE_INTEGER. simpl. lia. }
  split; [exact Hexact|].
  apply (getSumComments_order_independent _ _ Hexact).
  simpl. apply Permutation_swap.
Defined.

(** X4. When no story has a negative comment count, the total is not
    negative, and dismissing a story never raises it. *)
Theorem getSumComments_bounds state item :
  Forall (λ story, 0 ≤ num_comments story) (data state) →
  0 ≤ getSumComments state
  ∧ ∃ state',
      storiesReducer state (StoriesRemoveAction item) = Return state'
      ∧ 0 ≤ getSumComments state' ≤ getSumComments state.
Proof.
  assert (Hnonneg : ∀ stories,
    Forall (λ story, 0 ≤ num_comments story) stories →
    0 ≤ getSumComments (loadedStories stories)).
  { induction 1 as [|story stories Hstory _ IH]; [done|].
    rewrite sumComments_cons. lia. }
  intros Hcounts. split; [by apply Hnonneg|].
  eexists. split; [apply storiesReducer_remove|].
  rewrite (getSumComments_data state),
    (getSumComments_data {| data := filter _ _ |}). simpl.
  rewrite (sumComments_remove_split item (data state)).
  assert (Hkept : ∀ (P : Story → Prop) `{∀ story, Decision (P story)},
    0 ≤ getSumComments (loadedStories (filter P (data state)))).
  { intros P HP. apply Hnonneg, Forall_forall.
    intros story [_ Hin]%list_elem_of_filter.
    by apply (proj1 (Forall_forall _ _) Hcounts). }
  pose proof (Hkept (λ story, objectID item ≠ objectID story) _).
  pose proof (Hkept (λ story, objectID item = objectID story) _).
  lia.
Qed.

Lemma getSumComments_bounds_witness :
  0 ≤ getSumComments
        (loadedStories
           [{| objectID := "1"; url := ""; title := "A"; author := "";
               num_comments := 3; points := 0 |}]).
Proof.
  apply (getSumComments_bounds _ (sampleStory "1" "A" 0)).
  simpl. constructor; [simpl; lia | constructor].
Defined.
End SumComments.

(** * Properties of the fetch cycle *)

Section FetchCycle.
Implicit Types (state : StoriesState) (dismissed : list Story).

Lemma dispatchAll_app state (first second : list Action) :
  dispatchAll state (first ++ second) =
  match dispatchAll state first with
  | Return state' => dispatchAll state' second
  | Throw => Throw
  | Untyped => Untyped
  end.
Proof.
  revert state. induction first as [|action first IH]; intros state; simpl.
  - done.
  - destruct (storiesReducer state action); [apply IH|done..].
Qed.

(** Dismissing stories one after the other keeps the stories whose
    identifier is none of theirs. *)
Lemma dispatchAll_dismiss state dismissed :
  dispatchAll state (StoriesRemoveAction <$> dismissed) =
  Return {| data := filter (λ story, objectID story ∉ objectID <$> dismissed)
                      (data state);
            page := page state;
            isLoading := isLoading state;
            isError := isError state |}.
Proof.
  revert state.
  induction dismissed as [|item dismissed IH]; intros state.
  - simpl. destruct state as [stories ? ? ?]. simpl. do 2 f_equal.
    symmetry. apply filter_all, Forall_forall. intros story _.
    apply not_elem_of_nil.
  - rewrite fmap_cons.
    change (dispatchAll state (StoriesRemoveAction item :: ?rest))
      with (dispatchAll
              {| data := filter (λ story, objectID item ≠ objectID story)
                           (data state);
                 page := page state;
                 isLoading := isLoading state;
                 isError := isError state |} rest).
    rewrite IH. simpl. do 2 f_equal. rewrite list_filter_filter.
    apply list_filter_iff. intros story.
    rewrite not_elem_of_cons. intuition congruence.
Qed.

(** X5. One call of [handleFetchStories], with the stories dismissed while
    the request was pending: the store ends not loading; after a rejection
    it shows the error and holds the stories not dismissed, on the page of
    before; after a response it shows no error, holds the response's page,
    and its stories are those of the response for page 0 and otherwise the
    stories not dismissed followed by those of the response, which are not
    filtered. *)
Theorem handleFetchStories_settles state dismissed outcome :
  dispatchAll state (handleFetchStories dismissed outcome) =
  Return
    match outcome with
    | Resolved hits resultPage =>
        {| data :=
             if resultPage =? 0 then hits
             else filter (λ story, objectID story ∉ objectID <$> dismissed)
                    (data state) ++ hits;
           page := resultPage; isLoading := false; isError := false |}
    | Rejected =>
        {| data := filter (λ story, objectID story ∉ objectID <$> dismissed)
                     (data state);
           page := page state; isLoading := false; isError := true |}
    end.
Proof.
  unfold handleFetchStories.
  change (dispatchAll state (?a :: ?l))
    with (dispatchAll
            {| data := data state; page := page state;
               isLoading := true; isError := false |} l).
  rewrite dispatchAll_app, dispatchAll_dismiss. by destruct outcome.
Qed.

(** X6. The order in which stories are dismissed does not matter, and
    dismissing a story twice is dismissing it once: the store ends in the
    same state for any two lists of dismissed stories with the same
    identifiers. *)
Theorem dismiss_order_irrelevant state dismissed dismissed' :
  (∀ id, id ∈ objectID <$> dismissed ↔ id ∈ objectID <$> dismissed') →
  dispatchAll state (StoriesRemoveAction <$> dismissed)
  = dispatchAll state (StoriesRemoveAction <$> dismissed').
Proof.
  intros Hsame. rewrite !dispatchAll_dismiss. do 2 f_equal.
  apply list_filter_iff. intros story. by rewrite Hsame.
Qed.

Lemma dismiss_order_irrelevant_witness :
  dispatchAll
    (loadedStories [sampleStory "1" "A" 0; sampleStory "2" "B" 0;
                    sampleStory "3" "C" 0])
    (StoriesRemoveAction <$> [sampleStory "1" "A" 0; sampleStory "3" "C" 0])
  = dispatchAll
      (loadedStories [sampleStory "1" "A" 0; sampleStory "2" "B" 0;
                      sampleStory "3" "C" 0])
      (StoriesRemoveAction
         <$> [sampleStory "3" "C" 0; sampleStory "1" "A" 0;
              sampleStory "3" "other" 9]).
Proof.
  apply dismiss_order_irrelevant. intros id. simpl.
  rewrite !elem_of_cons, !elem_of_nil. tauto.
Defined.

(** X7. Until a page other than 0 is loaded, the paginated reducer does
    what the reducer of the version without pagination does: forgetting
    the page commutes with every action that is not the success of a later
    page, throws included. *)
Theorem storiesReducer_extends_unpaged state (action : Action) :
  firstPageOnly action →
  mapCompletion forgetPage (storiesReducer state action)
  = Unpaged.storiesReducer (forgetPage state) (forgetPayloadPage action).
Proof.
  unfold firstPageOnly, storiesReducer, Unpaged.storiesReducer. simpl.
  intros Hpage. repeat case_decide; try done.
  - destruct (payload action); simplify_eq/=; done.
  - destruct (payload action); simplify_eq/=; done.
Qed.

Lemma storiesReducer_extends_unpaged_witness :
  mapCompletion forgetPage
    (storiesReducer (loadedStories [sampleStory "1" "A" 0])
       (StoriesFetchSuccessAction [sampleStory "2" "B" 0] 0))
  = Unpaged.storiesReducer
      (forgetPage (loadedStories [sampleStory "1" "A" 0]))
      (forgetPayloadPage
         (StoriesFetchSuccessAction [sampleStory "2" "B" 0] 0)).
Proof. apply storiesReducer_extends_unpaged. reflexivity. Defined.

(** The success of a later page is where the two versions part: the
    paginated reducer appends, the other one replaces. *)
Lemma storiesReducer_later_page_differs :
  mapCompletion forgetPage
    (storiesReducer (loadedStories [sampleStory "1" "A" 0])
       (StoriesFetchSuccessAction [sampleStory "2" "B" 0] 1))
  ≠ Unpaged.storiesReducer
      (forgetPage (loadedStories [sampleStory "1" "A" 0]))
      (forgetPayloadPage
         (StoriesFetchSuccessAction [sampleStory "2" "B" 0] 1)).
Proof. by vm_compute. Qed.
End FetchCycle.

(** * Properties of [useSemiPersistentState] *)

Section PersistedTerm.
Import SemiPersistent.
Implicit Types (localStorage : gmap string string).
Implicit Types (key initialState : string) (inputs : list string).

Lemma visit_snoc localStorage key initialState inputs newValue :
  visit localStorage key initialState (inputs ++ [newValue])
  = setValue key newValue (visit localStorage key initialState inputs).
Proof. unfold visit. by rewrite foldl_snoc. Qed.

(** Inputs that all repeat one value end with that value. *)
Lemma last_all_equal (initial : string) inputs :
  Forall (λ newValue, newValue = initial) inputs →
  default initial (last inputs) = initial.
Proof.
  destruct (last inputs) as [final|] eqn:Hlast; [|done].
  intros Hall. simpl.
  apply last_Some_elem_of in Hlast.
  by apply (proj1 (Forall_forall _ _) Hall).
Qed.

(** A whole visit: the hook ends mounted, holding the last input, and
    the storage was left alone unless an input changed the value. *)
Lemma visit_result localStorage key initialState inputs :
  value (visit localStorage key initialState inputs).1
    = default (initialValue localStorage key initialState) (last inputs)
  ∧ isMounted (visit localStorage key initialState inputs).1 = true
  ∧ (visit localStorage key initialState inputs).2
    = if decide (Forall (λ newValue,
                     newValue = initialValue localStorage key initialState)
                   inputs)
      then localStorage
      else <[key := value (visit localStorage key initialState inputs).1]>
             localStorage.
Proof.
  induction inputs as [|newValue inputs IH] using rev_ind.
  - by rewrite decide_True by constructor.
  - rewrite visit_snoc, last_snoc. simpl default.
    destruct IH as (Hvalue & Hmounted & Hstorage).
    destruct (visit localStorage key initialState inputs)
      as [hook storage] eqn:Hvisit.
    simpl in Hvalue, Hmounted, Hstorage. unfold setValue. simpl.
    assert (Hall : Forall (λ v, v = initialValue localStorage key initialState)
                     inputs → value hook
                              = initialValue localStorage key initialState).
    { intros Hall. rewrite Hvalue. by apply last_all_equal. }
    destruct (decide (newValue = value hook)) as [Hsame|Hother]; simpl.
    + split; [done|]. split; [done|]. rewrite Hstorage.
      destruct (decide (Forall _ inputs)) as [Hbefore|Hbefore].
      * rewrite decide_True; [done|].
        apply Forall_app. split; [done|]. constructor; [|done].
        by rewrite Hsame, Hall.
      * rewrite decide_False; [done|].
        intros [? _]%Forall_app. done.
    + unfold effect. rewrite Hmounted. simpl.
      split; [done|]. split; [done|]. rewrite Hstorage.
      destruct (decide (Forall _ inputs)) as [Hbefore|Hbefore].
      * rewrite decide_False; [done|].
        intros [_ Hlast]%Forall_app. apply Forall_cons_1 in Hlast as [-> _].
        apply Hother. by rewrite Hall.
      * rewrite decide_False; [by rewrite insert_insert_eq|].
        intros [? _]%Forall_app. done.
Qed.

(** X8. Mounting the hook never writes to [localStorage], and neither do
    calls of [setValue] that repeat the initial value. Once an input has
    changed the value, the storage holds the last input under the key. In
    every case the entries of the other keys are as they were found. *)
Theorem useSemiPersistentState_writes localStorage key initialState inputs :
  (mount localStorage key initialState).2 = localStorage
  ∧ (visit localStorage key initialState inputs).2
    = (if decide (Forall (λ newValue,
                     newValue = initialValue localStorage key initialState)
                   inputs)
       then localStorage
       else <[key := default initialState (last inputs)]> localStorage)
  ∧ delete key (visit localStorage key initialState inputs).2
    = delete key localStorage.
Proof.
  destruct (visit_result localStorage key initialState inputs)
    as (Hvalue & _ & Hstorage).
  split; [done|]. rewrite Hstorage.
  destruct (decide (Forall _ inputs)) as [Hall|Hchanged]; [done|].
  split; [|apply delete_insert_eq].
  rewrite Hvalue. destruct (last inputs) eqn:Hlast; [done|].
  apply last_None in Hlast as ->. destruct Hchanged. constructor.
Qed.

(** X9. What a visit leaves is read back by the next one: the next initial
    value is the value the hook held last, except that an empty value is
    replaced by [initialState]. With [initialState = ''], as [App] calls
    the hook, the value held last always comes back. *)
Theorem useSemiPersistentState_reload localStorage key initialState inputs :
  initialValue (visit localStorage key initialState inputs).2
    key initialState
  = (if decide (value (visit localStorage key initialState inputs).1 = "")
     then initialState
     else value (visit localStorage key initialState inputs).1)
  ∧ initialValue (visit localStorage key "" inputs).2 key ""
    = value (visit localStorage key "" inputs).1.
Proof.
  assert (Hreload : ∀ initial,
    initialValue (visit localStorage key initial inputs).2 key initial
    = if decide (value (visit localStorage key initial inputs).1 = "")
      then initial
      else value (visit localStorage key initial inputs).1).
  { intros initial.
    destruct (visit_result localStorage key initial inputs)
      as (Hvalue & _ & Hstorage).
    rewrite Hstorage.
    destruct (decide (Forall _ inputs)) as [Hall|Hchanged].
    - rewrite Hvalue, (last_all_equal _ _ Hall).
      unfold initialValue.
      destruct (localStorage !! key) as [stored|]; repeat case_decide;
        congruence.
    - unfold initialValue at 1. by rewrite lookup_insert_eq. }
  split; [apply Hreload|].
  rewrite Hreload. by case_decide.
Qed.
End PersistedTerm.

(** * More on the query URLs and the search history *)

Section TermOfUrl.
Implicit Types (s t : string) (c : ascii) (term : string) (page : Z).
Local Arguments String.append !_ _ / : simpl nomatch.

Lemma includesChar_dropChars n s c :
  JS.includesChar s c = false → JS.includesChar (JS.dropChars n s) c = false.
Proof.
  revert s. induction n as [|n IH]; intros [|a s]; simpl; try done.
  intros [_ Htail]%orb_false_elim. by apply IH.
Qed.

(** Removing a pattern brings in no code unit the string had not. *)
Lemma includesChar_replace_empty s t c :
  JS.includesChar s c = false →
  JS.includesChar (JS.replace s t "") c = false.
Proof.
  induction s as [|a s IH]; simpl.
  - by destruct t.
  - intros [Hhead Htail]%orb_false_elim.
    destruct t as [|b t]; simpl; [by rewrite Hhead|].
    destruct (ascii_dec b a); simpl.
    + destruct (String.prefix t s); simpl.
      * by apply includesChar_dropChars.
      * by rewrite Hhead, IH.
    + by rewrite Hhead, IH.
Qed.

(** What is read back from the URL of a term with a question mark: the
    part after the last one, without its first [query=]. *)
Lemma extractSearchTerm_getUrl_after_last t1 t2 page :
  JS.includesChar t2 "?" = false →
  extractSearchTerm (getUrl (t1 +:+ String "?" t2) page)
  = JS.replace t2 PARAM_SEARCH "".
Proof.
  intros Hlast.
  destruct (toString_no_delimiter page) as [Hquestion Hampersand].
  set (rest := String "&" (PARAM_PAGE +:+ JS.toString page)).
  set (front := (API_BASE +:+ API_SEARCH +:+ "?" +:+ PARAM_SEARCH) +:+ t1).
  assert (Hurl : getUrl (t1 +:+ String "?" t2) page
                 = (front +:+ "?") +:+ t2 +:+ rest).
  { unfold getUrl, front, rest. rewrite !append_assoc. reflexivity. }
  assert (Hfirst : JS.lastIndexOf (getUrl (t1 +:+ String "?" t2) page) "?"
                   = Z.of_nat (String.length front)).
  { replace (getUrl (t1 +:+ String "?" t2) page)
      with (front +:+ String "?" (t2 +:+ rest))
      by (rewrite Hurl, !append_assoc; reflexivity).
    apply lastIndexOf_last. unfold rest.
    change (String "&" ?u) with ("&" +:+ u).
    rewrite !includesChar_append, Hlast, Hquestion. reflexivity. }
  assert (Hsecond : JS.lastIndexOf (getUrl (t1 +:+ String "?" t2) page) "&"
                    = Z.of_nat (String.length ((front +:+ "?") +:+ t2))).
  { rewrite Hurl, <- append_assoc. apply lastIndexOf_last.
    rewrite includesChar_append, Hampersand. reflexivity. }
  unfold extractSearchTerm. rewrite Hfirst, Hsecond.
  replace (Z.of_nat (String.length front) + 1)
    with (Z.of_nat (String.length (front +:+ "?")))
    by (rewrite length_append; simpl; lia).
  by rewrite (length_append (front +:+ "?")), Hurl, substring_middle.
Qed.

(** No question mark is ever read back from a URL of [getUrl]. *)
Lemma extractSearchTerm_no_question_mark term page :
  JS.includesChar (extractSearchTerm (getUrl term page)) "?" = false.
Proof.
  destruct (JS.includesChar term "?") eqn:Hterm.
  - apply includesChar_split_last in Hterm as (t1 & t2 & -> & Hlast).
    rewrite extractSearchTerm_getUrl_after_last by done.
    by apply includesChar_replace_empty.
  - by rewrite extractSearchTerm_getUrl.
Qed.

(** X10. Whatever the search term, the term read back from its URL holds
    no question mark, and is read back unchanged from the URL built with
    it for any page: the round trip that fails on the first URL holds on
    every URL [handleMore] derives from it. *)
Theorem extractSearchTerm_settles term page page' :
  JS.includesChar (extractSearchTerm (getUrl term page)) "?" = false
  ∧ extractSearchTerm (getUrl (extractSearchTerm (getUrl term page)) page')
    = extractSearchTerm (getUrl term page).
Proof.
  split; [apply extractSearchTerm_no_question_mark|].
  apply extractSearchTerm_getUrl, extractSearchTerm_no_question_mark.
Qed.
End TermOfUrl.

Section RecentSearches.
Implicit Types (urls terms : list string) (term previous : string).

Lemma getLastSearches_deriveRecentTerms urls :
  getLastSearches urls = deriveRecentTerms urls.
Proof.
  unfold getLastSearches, deriveRecentTerms.
  by rewrite slice_but_last, slice_last_six, reduce_collectSearchTerm.
Qed.

(** Collapsing a sequence with one more term: the term is added unless it
    repeats the last one. *)
Lemma collapseAfter_snoc (before : option string) terms term :
  collapseAfter before (terms ++ [term])
  = collapseAfter before terms
    ++ (if decide (Some term = match last terms with
                                | Some final => Some final
                                | None => before
                                end)
        then [] else [term]).
Proof.
  revert before. induction terms as [|head terms IH]; intros before.
  - simpl. by destruct (decide (Some term = before)).
  - simpl. rewrite IH, last_cons.
    by destruct (decide (Some head = before)), (last terms).
Qed.

Lemma collapse_snoc terms term :
  collapse (terms ++ [term])
  = collapse terms ++ (if decide (Some term = last terms) then [] else [term]).
Proof.
  unfold collapse. rewrite collapseAfter_snoc. by destruct (last terms).
Qed.

(** The collapsed sequence ends with the term the sequence ends with. *)
Lemma last_collapse terms : last (collapse terms) = last terms.
Proof.
  induction terms as [|term terms IH] using rev_ind; [done|].
  rewrite collapse_snoc, last_snoc.
  destruct (decide (Some term = last terms)) as [Hsame|_].
  - by rewrite app_nil_r, IH.
  - apply last_snoc.
Qed.

(** The window of six without its last entry, after one more term. *)
Lemma deriveRecentTerms_window (collapsed : list string) term :
  removelast (lastEntries 6 (collapsed ++ [term])) = lastEntries 5 collapsed.
Proof.
  unfold lastEntries. rewrite length_app. simpl.
  replace (length collapsed + 1 - 6)%nat with (length collapsed - 5)%nat
    by lia.
  rewrite drop_app_le by lia. apply removelast_last.
Qed.

Lemma last_lastEntries {A} (n : nat) (l : list A) :
  (0 < n)%nat → last (lastEntries n l) = last l.
Proof.
  intros Hn. destruct l as [|x l] using rev_ind; [done|].
  unfold lastEntries. rewrite length_app. simpl.
  rewrite drop_app_le by lia. by rewrite !last_snoc.
Qed.

Lemma deriveRecentTerms_same_term urls (url : string) :
  last (extractSearchTerm <$> urls) = Some (extractSearchTerm url) →
  deriveRecentTerms (urls ++ [url]) = deriveRecentTerms urls.
Proof.
  intros Hsame. unfold deriveRecentTerms.
  rewrite fmap_app. simpl. rewrite collapse_snoc.
  rewrite decide_True by done. by rewrite app_nil_r.
Qed.

(** X11. A URL whose term repeats the term of the last URL (a click on
    [More], the same term submitted again) leaves the last searches as they
    are. *)
Theorem getLastSearches_same_term urls (url : string) :
  last (extractSearchTerm <$> urls) = Some (extractSearchTerm url) →
  getLastSearches (urls ++ [url]) = getLastSearches urls.
Proof.
  intros Hsame. rewrite !getLastSearches_deriveRecentTerms.
  by apply deriveRecentTerms_same_term.
Qed.

Lemma getLastSearches_same_term_witness :
  getLastSearches ([getUrl "a" 0; getUrl "b" 0] ++ [getUrl "b" 1])
  = getLastSearches [getUrl "a" 0; getUrl "b" 0].
Proof. apply getLastSearches_same_term. by vm_compute. Defined.

Lemma collapseAfter_sublist (before : option string) terms :
  collapseAfter before terms `sublist_of` terms.
Proof.
  revert before. induction terms as [|head terms IH]; intros before; simpl.
  - constructor.
  - destruct (decide (Some head = before)).
    + apply sublist_cons, IH.
    + apply sublist_skip, IH.
Qed.

(** X12. A search for a term other than the one of the last URL makes the
    last searches the last five terms of the collapsed history of before:
    the term that was active becomes the newest entry, and every entry is
    a term of the URLs of before, in their order. The search just made
    adds no entry of its own. *)
Theorem getLastSearches_new_term urls term page previous :
  last (extractSearchTerm <$> urls) = Some previous →
  previous ≠ extractSearchTerm (getUrl term page) →
  getLastSearches (handleSearch urls term page)
    = lastEntries 5 (collapse (extractSearchTerm <$> urls))
  ∧ last (getLastSearches (handleSearch urls term page)) = Some previous
  ∧ getLastSearches (handleSearch urls term page)
    `sublist_of` (extractSearchTerm <$> urls).
Proof.
  intros Hlast Hnew.
  assert (Hwindow : getLastSearches (handleSearch urls term page)
                    = lastEntries 5 (collapse (extractSearchTerm <$> urls))).
  { unfold handleSearch. rewrite getLastSearches_deriveRecentTerms.
    unfold deriveRecentTerms. rewrite fmap_app. simpl.
    rewrite collapse_snoc, decide_False by (rewrite Hlast; congruence).
    apply deriveRecentTerms_window. }
  split; [exact Hwindow|]. rewrite Hwindow. split.
  - rewrite last_lastEntries by lia. by rewrite last_collapse.
  - unfold lastEntries, collapse.
    etrans; [apply sublist_drop | apply collapseAfter_sublist].
Qed.

Lemma getLastSearches_new_term_witness :
  getLastSearches (handleSearch [getUrl "a" 0; getUrl "b" 0] "c" 0)
    = lastEntries 5
        (collapse (extractSearchTerm <$> [getUrl "a" 0; getUrl "b" 0]))
  ∧ last (getLastSearches (handleSearch [getUrl "a" 0; getUrl "b" 0] "c" 0))
    = Some "b"
  ∧ getLastSearches (handleSearch [getUrl "a" 0; getUrl "b" 0] "c" 0)
    `sublist_of` (extractSearchTerm <$> [getUrl "a" 0; getUrl "b" 0]).
Proof.
  apply getLastSearches_new_term; [by vm_compute|].
  vm_compute. discriminate.
Defined.

(** A term searched again after another one is listed where it was
    searched the first time: after a, b and a again, the last searches are
    [a; b]. *)
Lemma getLastSearches_earlier_term_stays :
  getLastSearches (handleSearch [getUrl "a" 0; getUrl "b" 0] "a" 0)
  = ["a"; "b"].
Proof. by vm_compute. Qed.

(** X13. As long as every URL carries one and the same term (the empty
    history and a single URL included), there are no last searches. *)
Theorem getLastSearches_one_term urls term :
  Forall (λ url, extractSearchTerm url = term) urls →
  getLastSearches urls = [].
Proof.
  intros Hall. rewrite getLastSearches_deriveRecentTerms.
  unfold deriveRecentTerms, collapse.
  assert (Hrepeats : ∀ rest,
    Forall (λ url, extractSearchTerm url = term) rest →
    collapseAfter (Some term) (extractSearchTerm <$> rest) = []).
  { induction 1 as [|url rest Hurl _ IH]; [done|].
    simpl. by rewrite Hurl, decide_True. }
  destruct Hall as [|url rest Hurl Hrest]; [done|].
  rewrite fmap_cons.
  change (collapseAfter None (?head :: ?tail))
    with (head :: collapseAfter (Some head) tail).
  rewrite Hurl, (Hrepeats _ Hrest). reflexivity.
Qed.

Lemma getLastSearches_one_term_witness :
  getLastSearches [getUrl "react" 0; getUrl "react" 1; getUrl "react" 2]
  = [].
Proof.
  apply (getLastSearches_one_term _ "react").
  repeat (constructor; [by vm_compute|]). constructor.
Defined.

(** Every list of URLs [App] holds ends with a URL made by [getUrl]. *)
Lemma urlHistory_last urls :
  urlHistory urls → ∃ earlier term page, urls = earlier ++ [getUrl term page].
Proof.
  induction 1 as [term|urls term _ _|urls stories urls' _ _ Hmore].
  - by exists [], term, 0.
  - by exists urls, term, 0.
  - unfold handleMore in Hmore. destruct (last urls) as [lastUrl|]; [|done].
    simpl in Hmore. injection Hmore as <-. unfold handleSearch. eauto.
Qed.

(** X14. [handleMore] always finds a last URL in the list [App] holds, and
    the list it makes is the old one with one more URL: that of the term
    read from the last URL, for the page after the loaded one. The new URL
    decomposes to the very term the last one decomposed to, so the last
    searches do not change with it. *)
Theorem handleMore_continues urls (stories : StoriesState) :
  urlHistory urls →
  ∃ lastUrl,
    last urls = Some lastUrl
    ∧ handleMore urls stories
      = Some (urls ++ [getUrl (extractSearchTerm lastUrl) (page stories + 1)])
    ∧ extractSearchTerm
        (getUrl (extractSearchTerm lastUrl) (page stories + 1))
      = extractSearchTerm lastUrl
    ∧ getLastSearches
        (urls ++ [getUrl (extractSearchTerm lastUrl) (page stories + 1)])
      = getLastSearches urls.
Proof.
  intros (earlier & term & shown & ->)%urlHistory_last.
  exists (getUrl term shown).
  assert (Hterm : extractSearchTerm
                    (getUrl (extractSearchTerm (getUrl term shown))
                       (page stories + 1))
                  = extractSearchTerm (getUrl term shown)).
  { apply extractSearchTerm_getUrl, extractSearchTerm_no_question_mark. }
  split; [apply last_snoc|]. split; [|split; [exact Hterm|]].
  - unfold handleMore. by rewrite last_snoc.
  - rewrite !getLastSearches_deriveRecentTerms.
    apply deriveRecentTerms_same_term.
    rewrite fmap_app. simpl. by rewrite last_snoc, Hterm.
Qed.

Lemma handleMore_continues_witness :
  ∃ lastUrl,
    last [getUrl "a?b" 0] = Some lastUrl
    ∧ handleMore [getUrl "a?b" 0] (loadedStories [])
      = Some ([getUrl "a?b" 0]
                ++ [getUrl (extractSearchTerm lastUrl)
                      (page (loadedStories []) + 1)])
    ∧ extractSearchTerm
        (getUrl (extractSearchTerm lastUrl) (page (loadedStories []) + 1))
      = extractSearchTerm lastUrl
    ∧ getLastSearches
        ([getUrl "a?b" 0]
           ++ [getUrl (extractSearchTerm lastUrl)
                 (page (loadedStories []) + 1)])
      = getLastSearches [getUrl "a?b" 0].
Proof. apply handleMore_continues, urlHistory_initial. Defined.
End RecentSearches.

(** * Properties of the React keys *)

Section Keys.
Implicit Types (s t : string) (urls : list string).
Local Arguments String.append !_ _ / : simpl nomatch.

(** Two strings that are equal end with the same code unit. *)
Lemma append_last_char s t (a b : ascii) :
  s +:+ String a "" = t +:+ String b "" → a = b.
Proof.
  revert t. induction s as [|c s IH]; intros [|d t]; simpl; intros Heq.
  - by injection Heq.
  - injection Heq as _ Heq. by destruct t.
  - injection Heq as _ Heq. by destruct s.
  - injection Heq as _ Heq. by apply (IH t).
Qed.

(** Below ten, the index can be read off the last code unit of the key. *)
Lemma key_index s t (i j : nat) :
  (i < 10)%nat → (j < 10)%nat →
  s +:+ JS.toString (Z.of_nat i) = t +:+ JS.toString (Z.of_nat j) → i = j.
Proof.
  assert (Hdigit : ∀ n : nat, (n < 10)%nat →
    ∃ d, JS.toString (Z.of_nat n) = String d ""
         ∧ nat_of_ascii d = (48 + n)%nat).
  { intros n Hn.
    do 10 (destruct n as [|n]; [eexists; split; reflexivity|]). lia. }
  intros (a & Ha & Hcode)%Hdigit (b & Hb & Hcode')%Hdigit Heq.
  rewrite Ha, Hb in Heq. apply append_last_char in Heq as ->. lia.
Qed.

Lemma getLastSearches_length urls : (length (getLastSearches urls) ≤ 5)%nat.
Proof.
  rewrite getLastSearches_deriveRecentTerms.
  unfold deriveRecentTerms, lastEntries.
  rewrite removelast_firstn_len, length_take, length_drop. lia.
Qed.

(** X15. The keys [LastSearches] gives its buttons are pairwise different,
    also when a term is listed twice: a key ends with the index, and the
    list is too short for an index of two digits. *)
Theorem lastSearchKeys_NoDup urls :
  NoDup (lastSearchKeys (getLastSearches urls)).
Proof.
  pose proof (getLastSearches_length urls) as Hlength.
  apply NoDup_alt. intros i j key Hi Hj. unfold lastSearchKeys in Hi, Hj.
  rewrite list_lookup_imap in Hi, Hj.
  destruct (getLastSearches urls !! i) as [termI|] eqn:HtermI; [|done].
  destruct (getLastSearches urls !! j) as [termJ|] eqn:HtermJ; [|done].
  apply lookup_lt_Some in HtermI, HtermJ. simpl in Hi, Hj.
  injection Hi as Hi. injection Hj as Hj.
  apply (key_index termI termJ); [lia..|congruence].
Qed.

(** Without the bound the keys could clash: the term [a1] at index 0 and
    the term [a] at index 10 both get the key [a10]. *)
Lemma lastSearchKeys_clash_from_index_ten :
  lastSearchKeys ["a1"; "b"; "c"; "d"; "e"; "f"; "g"; "h"; "i"; "j"; "a"] !! 0%nat
  = lastSearchKeys ["a1"; "b"; "c"; "d"; "e"; "f"; "g"; "h"; "i"; "j"; "a"] !! 10%nat.
Proof. reflexivity. Qed.
End Keys.

(** * More on the sort engine *)

Section SortStates.
Implicit Types (sort : Sort) (key : SortKey) (items : Stories).

Lemma clickAll_snoc sort (keys : list SortKey) key :
  clickAll sort (keys ++ [key]) = handleSort (clickAll sort keys) key.
Proof. unfold clickAll. by rewrite foldl_snoc. Qed.

(** X16. Repeated clicks on one header button alternate between two sort
    states: the second click flips the reverse flag of the first, and the
    third click gives the state of the first again, from whatever state the
    clicks started. *)
Theorem handleSort_alternates sort key :
  isReverse (handleSort (handleSort sort key) key)
    = negb (isReverse (handleSort sort key))
  ∧ handleSort (handleSort (handleSort sort key) key) key
    = handleSort sort key.
Proof.
  unfold handleSort. simpl. rewrite !bool_decide_eq_true_2 by done. simpl.
  split; [done|]. by rewrite negb_involutive.
Qed.

(** X17. After any clicks on the four header buttons, the sort key is the
    key clicked last, and the reverse flag is never set under the key
    [NONE]: the list handed to [List] is never reversed in place. *)
Theorem clickAll_never_reverses_unsorted (keys : list SortKey) :
  Forall (λ key, key ≠ NONE) keys →
  sortKey (clickAll initialSort keys) = default NONE (last keys)
  ∧ ¬ (sortKey (clickAll initialSort keys) = NONE
       ∧ isReverse (clickAll initialSort keys) = true).
Proof.
  destruct keys as [|key keys _] using rev_ind.
  - intros _. split; [done|]. by intros [_ ?].
  - intros [_ Hkey%Forall_cons_1]%Forall_app. destruct Hkey as [Hkey _].
    rewrite clickAll_snoc, last_snoc. simpl. split; [done|].
    by intros [? _].
Qed.

Lemma clickAll_never_reverses_unsorted_witness :
  sortKey (clickAll initialSort [POINT; POINT; TITLE])
    = default NONE (last [POINT; POINT; TITLE])
  ∧ ¬ (sortKey (clickAll initialSort [POINT; POINT; TITLE]) = NONE
       ∧ isReverse (clickAll initialSort [POINT; POINT; TITLE]) = true).
Proof.
  apply clickAll_never_reverses_unsorted.
  repeat (constructor; [discriminate|]). constructor.
Defined.

(** X18. Whatever the sort state, the rendered list holds the stories of
    the list it was given, each as often as there: sorting neither drops
    nor repeats a story. *)
Theorem sortedList_Permutation sort items : sortedList sort items ≡ₚ items.
Proof.
  assert (Hsorts : ∀ key, SORTS key items ≡ₚ items).
  { intros []; simpl; rewrite ?reverse_Permutation;
      by rewrite ?sortBy_Permutation. }
  unfold sortedList. destruct (isReverse sort); [|done].
  by rewrite reverse_Permutation.
Qed.

(** Adjacent keys in order make a sorted list. *)
Lemma ascending_Sorted {K} (le : K → K → bool) (f : Story → K)
    (R : relation Story) items :
  (∀ a b, le (f a) (f b) = true → R a b) →
  Lodash.ascending le f items → Sorted R items.
Proof.
  intros Hle. induction items as [|story items IH]; [constructor|].
  intros [Hhead Htail]. constructor; [by apply IH|].
  destruct items; constructor. by apply Hle.
Qed.

Lemma Zleb_total (j k : Z) : (j <=? k) = true ∨ (k <=? j) = true.
Proof. destruct (Z.leb_spec j k); [by left|right]. apply Z.leb_le. lia. Qed.

(** The numeric sorts, before and after the reverse. *)
Lemma sortBy_number_order (f : Story → Z) items :
  StronglySorted (λ a b, f a ≤ f b) (Lodash.sortBy Z.leb f items)
  ∧ StronglySorted (λ a b, f b ≤ f a)
      (reverse (Lodash.sortBy Z.leb f items)).
Proof.
  assert (Hsorted : Sorted (λ a b, f a ≤ f b) (Lodash.sortBy Z.leb f items)).
  { apply (ascending_Sorted Z.leb f); [|apply sortBy_ascending, Zleb_total].
    intros a b. apply Z.leb_le. }
  split.
  - apply Sorted_StronglySorted; [|done]. intros a b c. lia.
  - apply Sorted_StronglySorted; [intros a b c; lia|].
    by apply (Sorted_reverse (λ a b, f a ≤ f b)).
Qed.

(** X19. The first click on [Points] or [Comments] renders the stories
    from the highest number to the lowest; with the reverse flag set they
    go from the lowest to the highest. In both cases every story stands in
    that order with every story after it, not only with the next one. *)
Theorem sortedList_number_order items :
  StronglySorted (λ a b, points b ≤ points a)
    (sortedList {| sortKey := POINT; isReverse := false |} items)
  ∧ StronglySorted (λ a b, points a ≤ points b)
      (sortedList {| sortKey := POINT; isReverse := true |} items)
  ∧ StronglySorted (λ a b, num_comments b ≤ num_comments a)
      (sortedList {| sortKey := COMMENT; isReverse := false |} items)
  ∧ StronglySorted (λ a b, num_comments a ≤ num_comments b)
      (sortedList {| sortKey := COMMENT; isReverse := true |} items).
Proof.
  unfold sortedList. simpl. rewrite !reverse_involutive.
  destruct (sortBy_number_order points items) as [Hup Hdown].
  destruct (sortBy_number_order num_comments items) as [Hup' Hdown'].
  done.
Qed.
End SortStates.

Section TextSorts.
Implicit Types (items : Stories).

Lemma String_leb_refl (s : string) : String.leb s s = true.
Proof. apply Is_true_true. exact (reflexivity (R := String.le) s). Qed.

Lemma String_leb_trans (s t u : string) :
  String.leb s t = true → String.leb t u = true → String.leb s u = true.
Proof.
  intros Hst%Is_true_true Htu%Is_true_true. apply Is_true_true.
  exact (transitivity (R := String.le) Hst Htu).
Qed.

(** The text sorts, before and after the reverse. *)
Lemma sortBy_text_order (f : Story → string) items :
  StronglySorted (λ a b, String.leb (f a) (f b) = true)
    (Lodash.sortBy String.leb f items)
  ∧ StronglySorted (λ a b, String.leb (f b) (f a) = true)
      (reverse (Lodash.sortBy String.leb f items)).
Proof.
  assert (Hsorted : Sorted (λ a b, String.leb (f a) (f b) = true)
                      (Lodash.sortBy String.leb f items)).
  { apply (ascending_Sorted String.leb f); [done|].
    apply sortBy_ascending, String.leb_total. }
  split.
  - apply Sorted_StronglySorted; [|done].
    intros a b c. apply String_leb_trans.
  - apply Sorted_StronglySorted.
    + intros a b c Hba Hcb. by apply (String_leb_trans _ (f b)).
    + by apply (Sorted_reverse
                  (λ a b, String.leb (f a) (f b) = true)).
Qed.

(** X20. The first click on [Title] or [Author] renders the stories in
    ascending order of that text, code unit by code unit, and stories with
    the same text keep the order they had in the list; with the reverse
    flag set the order is descending. *)
Theorem sortedList_text_order items :
  StronglySorted (λ a b, String.leb (title a) (title b) = true)
    (sortedList {| sortKey := TITLE; isReverse := false |} items)
  ∧ StronglySorted (λ a b, String.leb (title b) (title a) = true)
      (sortedList {| sortKey := TITLE; isReverse := true |} items)
  ∧ StronglySorted (λ a b, String.leb (author a) (author b) = true)
      (sortedList {| sortKey := AUTHOR; isReverse := false |} items)
  ∧ StronglySorted (λ a b, String.leb (author b) (author a) = true)
      (sortedList {| sortKey := AUTHOR; isReverse := true |} items)
  ∧ (∀ text,
       filter (λ story, title story = text)
         (sortedList {| sortKey := TITLE; isReverse := false |} items)
       = filter (λ story, title story = text) items)
  ∧ (∀ text,
       filter (λ story, author story = text)
         (sortedList {| sortKey := AUTHOR; isReverse := false |} items)
       = filter (λ story, author story = text) items).
Proof.
  unfold sortedList. simpl.
  destruct (sortBy_text_order title items) as [Hup Hdown].
  destruct (sortBy_text_order author items) as [Hup' Hdown'].
  repeat (split; [done|]).
  split; intros text; apply sortBy_stable, String_leb_refl.
Qed.

(** X21. When the stories of the store have pairwise different
    identifiers, so have the [Item]s of the rendered list under every sort
    state, and so have the stories left after a removal: the React keys of
    the items stay unique. *)
Theorem itemKeys_stay_unique (state : StoriesState) :
  NoDup (itemKeys (data state)) →
  (∀ sort, NoDup (itemKeys (sortedList sort (data state))))
  ∧ ∀ item, ∃ state',
      storiesReducer state (StoriesRemoveAction item) = Return state'
      ∧ NoDup (itemKeys (data state')).
Proof.
  unfold itemKeys. intros Hunique. split.
  - intros sort.
    assert (Hsorts : ∀ key, SORTS key (data state) ≡ₚ data state).
    { intros []; simpl; rewrite ?reverse_Permutation;
        by rewrite ?sortBy_Permutation. }
    unfold sortedList.
    destruct (isReverse sort);
      by rewrite ?reverse_Permutation, Hsorts.
  - intros item. eexists. split; [apply storiesReducer_remove|]. simpl.
    apply (sublist_NoDup _ (objectID <$> data state)); [exact Hunique|].
    apply fmap_sublist, sublist_filter.
Qed.

Lemma itemKeys_stay_unique_witness :
  (∀ sort,
     NoDup (itemKeys
              (sortedList sort
                 (data (loadedStories
                          [sampleStory "1" "A" 5; sampleStory "2" "B" 5])))))
  ∧ ∀ item, ∃ state',
      storiesReducer
        (loadedStories [sampleStory "1" "A" 5; sampleStory "2" "B" 5])
        (StoriesRemoveAction item) = Return state'
      ∧ NoDup (itemKeys (data state')).
Proof.
  apply itemKeys_stay_unique.
  apply (bool_decide_unpack _). vm_compute. exact I.
Defined.
End TextSorts.

Section HistoryShape.
Implicit Types (urls terms : list string).

(** In a collapsed sequence no term repeats the one before it, and the
    first term does not repeat the term the sequence comes after. *)
Lemma collapseAfter_no_repeat (before : option string) terms :
  (∀ i a b,
     collapseAfter before terms !! i = Some a →
     collapseAfter before terms !! S i = Some b → a ≠ b)
  ∧ ∀ a, head (collapseAfter before terms) = Some a → Some a ≠ before.
Proof.
  revert before. induction terms as [|term terms IH]; intros before; simpl.
  - split; [intros i a b Hi; by rewrite lookup_nil in Hi|done].
  - destruct (IH (Some term)) as [Hadjacent Hhead].
    destruct (decide (Some term = before)) as [<-|Hnew]; [done|].
    split.
    + intros [|i] a b Ha Hb; simpl in Ha, Hb.
      * injection Ha as <-. rewrite <- head_lookup in Hb.
        apply Hhead in Hb. congruence.
      * by apply (Hadjacent i).
    + simpl. by intros a [= <-].
Qed.

(** X22. The last searches are terms of the URLs, in the order of the
    URLs, and no entry repeats the entry before it. *)
Theorem getLastSearches_shape urls :
  getLastSearches urls `sublist_of` (extractSearchTerm <$> urls)
  ∧ ∀ i a b,
      getLastSearches urls !! i = Some a →
      getLastSearches urls !! S i = Some b → a ≠ b.
Proof.
  rewrite getLastSearches_deriveRecentTerms.
  unfold deriveRecentTerms, lastEntries, collapse.
  rewrite removelast_firstn_len. split.
  - etrans; [apply sublist_take|]. etrans; [apply sublist_drop|].
    apply collapseAfter_sublist.
  - intros i a b [Ha _]%lookup_take_Some [Hb _]%lookup_take_Some.
    rewrite lookup_drop in Ha, Hb.
    destruct (collapseAfter_no_repeat None (extractSearchTerm <$> urls))
      as [Hadjacent _].
    eapply Hadjacent; [exact Ha|].
    by rewrite <- Nat.add_succ_r.
Qed.
End HistoryShape.

(** * The sort by points and its reverse toggle *)

Section PointToggle.
Implicit Types (items : Stories) (score : Z).

(** C6, as the code has it. Sorting by points without the reverse flag
    renders the stories of the list, all of them, from the highest point
    score to the lowest, those of any one score in the reverse of their
    input order: [sortBy] is stable, and the descending order is obtained
    by reversing its whole result. Sorting that result by points with the
    reverse flag set renders the same stories from the lowest score to the
    highest and keeps the order its input has among equal scores, which is
    again the reverse of the original one. On one and the same list, the
    reverse flag reverses the rendered list exactly and leaves the stories
    of one score in their input order, and toggling it twice gives back the
    sort state, so the rendered list, of before. *)
Theorem point_sort_reverses_equal_scores items score :
  (sortedList pointsFirst items ≡ₚ items
   ∧ StronglySorted (λ a b, points b ≤ points a)
       (sortedList pointsFirst items)
   ∧ withPoints score (sortedList pointsFirst items)
     = reverse (withPoints score items))
  ∧ (sortedList pointsToggled (sortedList pointsFirst items) ≡ₚ items
     ∧ StronglySorted (λ a b, points a ≤ points b)
         (sortedList pointsToggled (sortedList pointsFirst items))
     ∧ withPoints score
         (sortedList pointsToggled (sortedList pointsFirst items))
       = reverse (withPoints score items))
  ∧ (sortedList pointsToggled items = reverse (sortedList pointsFirst items)
     ∧ StronglySorted (λ a b, points a ≤ points b)
         (sortedList pointsToggled items)
     ∧ withPoints score (sortedList pointsToggled items)
       = withPoints score items)
  ∧ sortedList (handleSort pointsToggled POINT) items
    = sortedList pointsFirst items.
Proof.
  assert (Hfirst : sortedList pointsFirst items
                   = reverse (Lodash.sortBy Z.leb points items))
    by reflexivity.
  assert (Hties : withPoints score (sortedList pointsFirst items)
                  = reverse (withPoints score items)).
  { rewrite Hfirst. unfold withPoints.
    rewrite filter_reverse. f_equal. apply sortBy_points_stable. }
  split; [|split; [|split; [|reflexivity]]].
  - split; [|split; [|exact Hties]].
    + by rewrite Hfirst, reverse_Permutation, sortBy_Permutation.
    + rewrite Hfirst. apply sortBy_number_order.
  - rewrite sortedList_pointsToggled. split; [|split].
    + by rewrite sortBy_Permutation, Hfirst, reverse_Permutation,
        sortBy_Permutation.
    + apply sortBy_number_order.
    + by rewrite sortBy_points_stable.
  - rewrite sortedList_pointsToggled. split; [|split].
    + rewrite Hfirst. by rewrite reverse_involutive.
    + apply sortBy_number_order.
    + apply sortBy_points_stable.
Qed.
End PointToggle.
